(** * Strategic field visualizer: the cellular automaton core

    A shallow embedding of [StrategicAutomaton] from
    [strategic_field_visualizer.py]: grid construction, the payoff tables,
    the per-cell fitness sum and the "best takes over" generation update.

    Python values are modelled as follows.
    - [int] is [Z]; [//] and [%] are [Z.div] and [Z.modulo] (both floor
      towards minus infinity, as in Python), with division by zero raised
      as an exception.
    - [float] is IEEE 754 binary64, i.e. Rocq's primitive [float]: sums are
      rounded as the interpreter rounds them, and comparisons are the IEEE
      ones.  The integer payoffs (3, 1, 0, 4) and every partial sum of them
      are small integers, exactly representable, so adding them as binary64
      gives the value Python and numpy compute.
    - a two-dimensional numpy array is a list of rows.
    - exceptions are a [result] type threaded with [bind]. *)

From Stdlib Require Import ZArith List String Ascii Bool Lia Floats.
Import ListNotations.
Local Open Scope string_scope.
Local Open Scope Z_scope.

Set Warnings "-inexact-float".

(** ** Python runtime *)

Inductive exn : Set :=
| ValueError
| KeyError
| IndexError
| ZeroDivisionError
| AttributeError.

Inductive result (A : Type) : Type :=
| Ok (a : A)
| Raise (e : exn).
Arguments Ok {A} a.
Arguments Raise {A} e.

Definition bind {A B : Type} (m : result A) (k : A -> result B) : result B :=
  match m with
  | Ok a => k a
  | Raise e => Raise e
  end.

Declare Scope py_scope.
Delimit Scope py_scope with py.
Notation "x <- m ;; k" := (bind m (fun x => k))
  (at level 61, m at next level, right associativity) : py_scope.
Notation "' p <- m ;; k" := (bind m (fun p => k))
  (at level 61, p pattern, m at next level, right associativity) : py_scope.
Local Open Scope py_scope.

(** A [for] loop whose body may raise: the accumulator is the loop state. *)
Fixpoint foldM {A S : Type} (body : S -> A -> result S) (l : list A) (s : S)
  : result S :=
  match l with
  | [] => Ok s
  | a :: t => s' <- body s a ;; foldM body t s'
  end.

(** A list comprehension whose element expression may raise. *)
Fixpoint mapM {A B : Type} (f : A -> result B) (l : list A) : result (list B) :=
  match l with
  | [] => Ok []
  | a :: t => b <- f a ;; bs <- mapM f t ;; Ok (b :: bs)
  end.

(** [a % b] *)
Definition py_mod (a b : Z) : result Z :=
  if b =? 0 then Raise ZeroDivisionError else Ok (a mod b).

(** [range(lo, hi)] and [range(n)] *)
Definition range2 (lo hi : Z) : list Z :=
  map (fun k => lo + Z.of_nat k) (seq 0 (Z.to_nat (hi - lo))).
Definition range (n : Z) : list Z := range2 0 n.

(** [needle in hay] on strings *)
Fixpoint str_in (needle hay : string) : bool :=
  if String.prefix needle hay then true
  else match hay with
       | EmptyString => false
       | String _ rest => str_in needle rest
       end.

(** A [dict] with string keys, in insertion order. *)
Definition dict (V : Type) : Type := list (string * V).

(** [d[k]] *)
Fixpoint dict_get {V : Type} (d : dict V) (k : string) : result V :=
  match d with
  | [] => Raise KeyError
  | (k', v) :: rest => if String.eqb k' k then Ok v else dict_get rest k
  end.

(** ** numpy arrays of two dimensions *)

Definition ndarray (A : Type) : Type := list (list A).

Definition len {A : Type} (l : list A) : Z := Z.of_nat (List.length l).

(** [np.full((n, m), v)]; [np.zeros] is [np_full] at 0.  A negative
    dimension is refused. *)
Definition np_full {A : Type} (n m : Z) (v : A) : result (ndarray A) :=
  if (n <? 0) || (m <? 0) then Raise ValueError
  else Ok (repeat (repeat v (Z.to_nat m)) (Z.to_nat n)).

(** An integer index along an axis of length [n]: a negative index counts
    from the end, anything outside raises. *)
Definition norm_index (n i : Z) : result nat :=
  let j := if i <? 0 then i + n else i in
  if (0 <=? j) && (j <? n) then Ok (Z.to_nat j) else Raise IndexError.

(** [a[y, x]] *)
Definition getitem {A : Type} (a : ndarray A) (y x : Z) : result A :=
  iy <- norm_index (len a) y ;;
  match nth_error a iy with
  | None => Raise IndexError
  | Some row =>
      ix <- norm_index (len row) x ;;
      match nth_error row ix with
      | None => Raise IndexError
      | Some v => Ok v
      end
  end.

Fixpoint list_set {A : Type} (l : list A) (i : nat) (v : A) : list A :=
  match l, i with
  | [], _ => []
  | _ :: t, O => v :: t
  | a :: t, S i' => a :: list_set t i' v
  end.

(** [a[y, x] = v] *)
Definition setitem {A : Type} (a : ndarray A) (y x : Z) (v : A)
  : result (ndarray A) :=
  iy <- norm_index (len a) y ;;
  match nth_error a iy with
  | None => Raise IndexError
  | Some row =>
      ix <- norm_index (len row) x ;;
      Ok (list_set a iy (list_set row ix v))
  end.

(** The bound of a slice with step 1 along an axis of length [n]
    ([slice.indices]): [None] is the default end, a negative bound counts
    from the end, and the result is clipped to [0..n]. *)
Definition slice_bound (n : Z) (dflt : Z) (b : option Z) : Z :=
  match b with
  | None => dflt
  | Some i =>
      let j := if i <? 0 then i + n else i in
      Z.max 0 (Z.min n j)
  end.

Definition in_slice (n : Z) (start stop : option Z) (i : Z) : bool :=
  (slice_bound n 0 start <=? i) && (i <? slice_bound n n stop).

Fixpoint imap_from {A B : Type} (f : Z -> A -> B) (i : Z) (l : list A) : list B :=
  match l with
  | [] => []
  | a :: t => f i a :: imap_from f (i + 1) t
  end.

(** [a[y0:y1, x0:x1] = v] *)
Definition assign_slice {A : Type} (a : ndarray A)
    (y0 y1 x0 x1 : option Z) (v : A) : ndarray A :=
  imap_from (fun y row =>
    imap_from (fun x c =>
      if in_slice (len a) y0 y1 y && in_slice (len row) x0 x1 x then v else c)
      0 row) 0 a.

(** ** numpy.random.choice

    [np.random.choice(a, size=(n, m), p=p)] as the library implements it:
    [p] is checked (one entry per element of [a], no NaN, no negative entry,
    sum 1 up to [sqrt(eps)]), then each cell draws a uniform number [u] of
    [0,1) and takes the element of [a] whose cumulative-probability bin
    contains [u].  The process-wide generator is represented by what it
    yields: [uniform y x] is the number drawn for cell [(y,x)]. *)

Local Open Scope float_scope.

Definition kahan_sum (p : list float) : float :=
  match p with
  | [] => 0
  | p0 :: rest =>
      fst (fold_left (fun '(sum, c) x =>
                        let y := x - c in
                        let t := sum + y in
                        (t, (t - sum) - y)) rest (p0, 0))
  end.

Fixpoint cumsum_from (acc : float) (p : list float) : list float :=
  match p with
  | [] => []
  | x :: t => (acc + x) :: cumsum_from (acc + x) t
  end.

(** [p.cumsum()]: the first entry is [p0] itself. *)
Definition cumsum (p : list float) : list float :=
  match p with
  | [] => []
  | p0 :: t => p0 :: cumsum_from p0 t
  end.

(** [cdf.searchsorted(u, side='right')] on a non-decreasing [cdf]: the
    number of leading entries that are [<= u]. *)
Fixpoint searchsorted_right (cdf : list float) (u : float) : nat :=
  match cdf with
  | [] => O
  | c :: t => if c <=? u then S (searchsorted_right t u) else O
  end.

(** [sqrt(finfo(float64).eps)], that is 2^-26 *)
Definition atol : float := sqrt 0x1p-52.

Definition np_random_choice (uniform : Z -> Z -> float)
    (a : list Z) (n m : Z) (p : list float) : result (ndarray Z) :=
  if negb (len p =? len a)%Z then Raise ValueError else
  let p_sum := kahan_sum p in
  if is_nan p_sum then Raise ValueError else
  if existsb (fun q => q <? 0) p then Raise ValueError else
  if atol <? abs (p_sum - 1) then Raise ValueError else
  if ((n <? 0) || (m <? 0))%Z then Raise ValueError else
  let cdf := cumsum p in
  let cdf := map (fun c => c / last cdf 0) cdf in
  mapM (fun y =>
    mapM (fun x =>
      match nth_error a (searchsorted_right cdf (uniform y x)) with
      | Some v => Ok v
      | None => Raise IndexError
      end) (range m)) (range n).

Local Close Scope float_scope.

(** ** class StrategicAutomaton *)

Definition COOPERATE : Z := 0.
Definition DEFECT : Z := 1.

(** The attributes of an instance once [__init__] has returned. *)
Record StrategicAutomaton : Type := {
  grid_size : Z;
  game_type : string;
  payoffs : dict float;
  grid : ndarray Z;
  cmap : list string
}.

(** The attributes of an instance while [__init__] runs: each is absent
    until its assignment has executed. *)
Record instance : Type := {
  attr_grid_size : option Z;
  attr_game_type : option string;
  attr_payoffs : option (dict float);
  attr_grid : option (ndarray Z);
  attr_cmap : option (list string)
}.

Definition fresh_instance : instance :=
  {| attr_grid_size := None; attr_game_type := None; attr_payoffs := None;
     attr_grid := None; attr_cmap := None |}.

(** [_get_payoffs], lines 92-108 *)
Definition _get_payoffs (game_type : string) : result (dict float) :=
  if String.eqb game_type "prisoner_clusters" then
    Ok [("R", 3); ("T", 3.1); ("P", 1); ("S", 0)]%float
  else if String.eqb game_type "hawk_dove_spirals" then
    let V := 3.5%float in
    let C := 4.5%float in
    Ok [("V/2", V / 2); ("V", V); ("0", 0); ("(V-C)/2", (V - C) / 2)]%float
  else if String.eqb game_type "stag_hunt" then
    Ok [("Stag", 4); ("Hare", 2.5); ("Sucker", 0); ("BothHare", 1.5)]%float
  else Raise ValueError.

Definition centers : list (Z * Z) := [(30, 30); (120, 40); (70, 100); (40, 120)].

(** The stamping loop of [_initialize_grid], lines 80-86: four disks of
    radius 8, wrapped modulo [N]. *)
Definition stamp_clusters (N : Z) (grid : ndarray Z) : result (ndarray Z) :=
  foldM (fun grid '(cy, cx) =>
    foldM (fun grid dy =>
      foldM (fun grid dx =>
        if dy * dy + dx * dx <=? 64 then
          y <- py_mod (cy + dy) N ;;
          x <- py_mod (cx + dx) N ;;
          setitem grid y x COOPERATE
        else Ok grid) (range2 (-8) 9) grid) (range2 (-8) 9) grid)
    centers grid.

(** [_initialize_grid], lines 57-90; [N] is [self.grid_size]. *)
Definition _initialize_grid (uniform : Z -> Z -> float) (N : Z)
    (condition : string) (density : float) (invader_size : Z)
  : result (ndarray Z) :=
  if String.eqb condition "random" then
    np_random_choice uniform [COOPERATE; DEFECT] N N
      [density; (1 - density)%float]
  else if String.eqb condition "split" then
    grid <- np_full N N 0 ;;
    Ok (assign_slice grid None None (Some (N / 2)) None DEFECT)
  else if String.eqb condition "invader" then
    grid <- np_full N N COOPERATE ;;
    let center := N / 2 in
    let half_size := invader_size / 2 in
    Ok (assign_slice grid
          (Some (center - half_size)) (Some (center + half_size + 1))
          (Some (center - half_size)) (Some (center + half_size + 1)) DEFECT)
  else if String.eqb condition "clusters" then
    grid <- np_full N N DEFECT ;;
    stamp_clusters N grid
  else Raise ValueError.

(** [__init__], lines 38-55: the attributes are installed one by one, and
    an exception leaves the instance with those installed so far. *)
Definition __init__ (uniform : Z -> Z -> float) (self : instance)
    (grid_size : Z) (game_type initial_condition : string)
    (initial_coop_density : float) (invader_size : Z)
  : instance * result unit :=
  let self := {| attr_grid_size := Some grid_size;
                 attr_game_type := attr_game_type self;
                 attr_payoffs := attr_payoffs self;
                 attr_grid := attr_grid self;
                 attr_cmap := attr_cmap self |} in
  let self := {| attr_grid_size := attr_grid_size self;
                 attr_game_type := Some game_type;
                 attr_payoffs := attr_payoffs self;
                 attr_grid := attr_grid self;
                 attr_cmap := attr_cmap self |} in
  match _get_payoffs game_type with
  | Raise e => (self, Raise e)
  | Ok p =>
      let self := {| attr_grid_size := attr_grid_size self;
                     attr_game_type := attr_game_type self;
                     attr_payoffs := Some p;
                     attr_grid := attr_grid self;
                     attr_cmap := attr_cmap self |} in
      match _initialize_grid uniform grid_size initial_condition
              initial_coop_density invader_size with
      | Raise e => (self, Raise e)
      | Ok g =>
          let self := {| attr_grid_size := attr_grid_size self;
                         attr_game_type := attr_game_type self;
                         attr_payoffs := attr_payoffs self;
                         attr_grid := Some g;
                         attr_cmap := attr_cmap self |} in
          let self := {| attr_grid_size := attr_grid_size self;
                         attr_game_type := attr_game_type self;
                         attr_payoffs := attr_payoffs self;
                         attr_grid := attr_grid self;
                         attr_cmap := Some ["#1f77b4"; "#ff7f0e"] |} in
          (self, Ok tt)
      end
  end.

(** The call [StrategicAutomaton(...)]: a fresh instance is initialised and
    returned if [__init__] did not raise. *)
Definition construct (uniform : Z -> Z -> float)
    (grid_size : Z) (game_type initial_condition : string)
    (initial_coop_density : float) (invader_size : Z)
  : result StrategicAutomaton :=
  match __init__ uniform fresh_instance grid_size game_type initial_condition
          initial_coop_density invader_size with
  | (_, Raise e) => Raise e
  | ({| attr_grid_size := Some n; attr_game_type := Some gt;
        attr_payoffs := Some p; attr_grid := Some g; attr_cmap := Some c |},
     Ok _) =>
      Ok {| grid_size := n; game_type := gt; payoffs := p; grid := g; cmap := c |}
  | (_, Ok _) => Raise AttributeError
  end.

Definition offsets : list Z := [-1; 0; 1].

(** The payoff dispatch of [_get_fitness], lines 127-143: the term one
    neighbour adds to the score. *)
Definition interaction (self : StrategicAutomaton)
    (my_strategy neighbor_strategy : Z) (score : float) : result float :=
  let p := payoffs self in
  if str_in "prisoner" (game_type self) then
    if my_strategy =? COOPERATE then
      v <- (if neighbor_strategy =? COOPERATE
            then dict_get p "R" else dict_get p "S") ;;
      Ok (score + v)%float
    else
      v <- (if neighbor_strategy =? COOPERATE
            then dict_get p "T" else dict_get p "P") ;;
      Ok (score + v)%float
  else if str_in "hawk_dove" (game_type self) then
    if my_strategy =? COOPERATE then
      v <- (if neighbor_strategy =? COOPERATE
            then dict_get p "V/2" else dict_get p "0") ;;
      Ok (score + v)%float
    else
      v <- (if neighbor_strategy =? COOPERATE
            then dict_get p "V" else dict_get p "(V-C)/2") ;;
      Ok (score + v)%float
  else if str_in "stag_hunt" (game_type self) then
    if my_strategy =? COOPERATE then
      v <- (if neighbor_strategy =? COOPERATE
            then dict_get p "Stag" else dict_get p "Sucker") ;;
      Ok (score + v)%float
    else
      v <- (if neighbor_strategy =? COOPERATE
            then dict_get p "Hare" else dict_get p "BothHare") ;;
      Ok (score + v)%float
  else Ok score.

(** [_get_fitness], lines 110-145 *)
Definition _get_fitness (self : StrategicAutomaton) (y x : Z)
    (current_grid : ndarray Z) : result float :=
  my_strategy <- getitem current_grid y x ;;
  foldM (fun score dy =>
    foldM (fun score dx =>
      if (dy =? 0) && (dx =? 0) then Ok score
      else
        ny <- py_mod (y + dy) (grid_size self) ;;
        nx <- py_mod (x + dx) (grid_size self) ;;
        neighbor_strategy <- getitem current_grid ny nx ;;
        interaction self my_strategy neighbor_strategy score)
      offsets score)
    offsets 0%float.

(** The candidate scan of [step], lines 160-169: the running maximum and
    the strategy of the candidate that set it. *)
Definition best_takes_over (self : StrategicAutomaton)
    (fitness_grid : ndarray float) (y x : Z) : result (float * Z) :=
  foldM (fun '(max_fitness, best_strategy) dy =>
    foldM (fun '(max_fitness, best_strategy) dx =>
      ny <- py_mod (y + dy) (grid_size self) ;;
      nx <- py_mod (x + dx) (grid_size self) ;;
      f <- getitem fitness_grid ny nx ;;
      if (max_fitness <? f)%float then
        s <- getitem (grid self) ny nx ;;
        Ok (f, s)
      else Ok (max_fitness, best_strategy))
      offsets (max_fitness, best_strategy))
    offsets (neg_infinity, -1).

(** [step], lines 147-173 *)
Definition step (self : StrategicAutomaton) : result StrategicAutomaton :=
  fitness_grid <-
    mapM (fun y =>
      mapM (fun x => _get_fitness self y x (grid self))
        (range (grid_size self)))
      (range (grid_size self)) ;;
  let next_grid := grid self in
  next_grid <-
    foldM (fun next_grid y =>
      foldM (fun next_grid x =>
        '(_, best_strategy) <- best_takes_over self fitness_grid y x ;;
        setitem next_grid y x best_strategy)
        (range (grid_size self)) next_grid)
      (range (grid_size self)) next_grid ;;
  Ok {| grid_size := grid_size self; game_type := game_type self;
        payoffs := payoffs self; grid := next_grid; cmap := cmap self |}.

(** [k] generations: [step] called [k] times in sequence. *)
Fixpoint run (k : nat) (self : StrategicAutomaton) : result StrategicAutomaton :=
  match k with
  | O => Ok self
  | S k' => self' <- step self ;; run k' self'
  end.

(** ** Reading the model *)

(** The cell at row [y], column [x] (0 outside the array). *)
Definition cell {A : Type} (d : A) (g : ndarray A) (y x : Z) : A :=
  nth (Z.to_nat x) (nth (Z.to_nat y) g []) d.

Definition square {A : Type} (N : Z) (g : ndarray A) : Prop :=
  len g = N /\ Forall (fun row => len row = N) g.

Definition binary (g : ndarray Z) : Prop :=
  Forall (Forall (fun c => c = COOPERATE \/ c = DEFECT)) g.

Definition valid_game_type (gt : string) : Prop :=
  gt = "prisoner_clusters" \/ gt = "hawk_dove_spirals" \/ gt = "stag_hunt".

(** What construction establishes and every generation keeps. *)
Record valid (self : StrategicAutomaton) : Prop := {
  valid_type : valid_game_type (game_type self);
  valid_payoffs : _get_payoffs (game_type self) = Ok (payoffs self);
  valid_square : square (grid_size self) (grid self);
  valid_binary : binary (grid self)
}.

(** A generator used to exercise the statements: it yields 0.25 on cells of
    even parity and 0.75 on the others. *)
Definition uniform_half : Z -> Z -> float := fun y x =>
  if Z.even (y + x) then 0.25%float else 0.75%float.

(** The 2x2 payoff table of a variant, indexed by "this cell cooperates" and
    "that neighbour cooperates": R, S, T, P for the prisoner's dilemma;
    V/2, 0, V, (V-C)/2 for hawk-dove; Stag, Sucker, Hare, BothHare for the
    stag hunt. *)
Definition payoff_table (gt : string) (me nb : bool) : float :=
  if String.eqb gt "prisoner_clusters" then
    (if me then (if nb then 3 else 0) else (if nb then 3.1 else 1))%float
  else if String.eqb gt "hawk_dove_spirals" then
    (if me then (if nb then 3.5 / 2 else 0)
     else (if nb then 3.5 else (3.5 - 4.5) / 2))%float
  else if String.eqb gt "stag_hunt" then
    (if me then (if nb then 4 else 0) else (if nb then 2.5 else 1.5))%float
  else 0%float.

Definition payoff_term (gt : string) (my_strategy neighbor_strategy : Z) : float :=
  payoff_table gt (my_strategy =? COOPERATE) (neighbor_strategy =? COOPERATE).

(** The nine positions examined for cell [(y,x)], in scan order: row offset
    -1, 0, 1 outside, column offset -1, 0, 1 inside, wrapped modulo [N]. *)
Definition neighborhood (N y x : Z) : list (Z * Z) :=
  flat_map (fun dy => map (fun dx => ((y + dy) mod N, (x + dx) mod N)) offsets)
    offsets.

(** The eight of them that are not offset (0,0). *)
Definition neighbors (N y x : Z) : list (Z * Z) :=
  flat_map (fun dy =>
    flat_map (fun dx =>
      if (dy =? 0) && (dx =? 0) then []
      else [((y + dy) mod N, (x + dx) mod N)]) offsets) offsets.

(** The sum of the payoff terms of the eight neighbours, added in scan
    order starting from 0. *)
Definition fitness_sum (gt : string) (N : Z) (g : ndarray Z) (y x : Z) : float :=
  fold_left (fun score '(ny, nx) =>
               (score + payoff_term gt (cell 0%Z g y x) (cell 0%Z g ny nx))%float)
    (neighbors N y x) 0%float.

(** One comparison of the candidate scan. *)
Definition scan1 (st c : float * Z) : float * Z :=
  let '(max_fitness, best_strategy) := st in
  if (max_fitness <? fst c)%float then c else (max_fitness, best_strategy).

(** The candidates of cell [(y,x)]: fitness and strategy, both read from the
    one grid [g]. *)
Definition candidates (gt : string) (N : Z) (g : ndarray Z) (y x : Z)
  : list (float * Z) :=
  map (fun '(ny, nx) => (fitness_sum gt N g ny nx, cell 0 g ny nx))
    (neighborhood N y x).

Definition winner (gt : string) (N : Z) (g : ndarray Z) (y x : Z) : float * Z :=
  fold_left scan1 (candidates gt N g y x) (neg_infinity, -1).

(** [a] with cell [(y,x)] replaced, for indices inside the array. *)
Definition write {A : Type} (a : ndarray A) (y x : Z) (v : A) : ndarray A :=
  list_set a (Z.to_nat y) (list_set (nth (Z.to_nat y) a []) (Z.to_nat x) v).

Definition tabulate {A : Type} (N : Z) (f : Z -> Z -> A) : ndarray A :=
  map (fun y => map (fun x => f y x) (range N)) (range N).

Definition strategy (c : Z) : Prop := c = COOPERATE \/ c = DEFECT.

(** The grid after one generation: every cell takes the strategy of the
    winner of its own scan, all scans reading the grid before the step. *)
Definition next_grid (self : StrategicAutomaton) : ndarray Z :=
  tabulate (grid_size self)
    (fun y x => snd (winner (game_type self) (grid_size self) (grid self) y x)).

(** A 3 x 3 prisoner's dilemma used to exercise the statements below. *)
Definition demo : StrategicAutomaton :=
  {| grid_size := 3; game_type := "prisoner_clusters";
     payoffs := [("R", 3); ("T", 3.1); ("P", 1); ("S", 0)]%float;
     grid := [[0; 0; 1]; [0; 1; 1]; [1; 1; 0]];
     cmap := ["#1f77b4"; "#ff7f0e"] |}.

(** A 3 x 3 hawk-dove grid of defectors only. *)
Definition all_defect : StrategicAutomaton :=
  {| grid_size := 3; game_type := "hawk_dove_spirals";
     payoffs := [("V/2", 1.75); ("V", 3.5); ("0", 0); ("(V-C)/2", -0.5)]%float;
     grid := [[1; 1; 1]; [1; 1; 1]; [1; 1; 1]];
     cmap := ["#1f77b4"; "#ff7f0e"] |}.

(** The four names [_initialize_grid] recognises. *)
Definition supported_condition (ic : string) : Prop :=
  ic = "random" \/ ic = "split" \/ ic = "invader" \/ ic = "clusters".

(** Two automata that agree on everything a generation reads. *)
Definition same_state (a b : StrategicAutomaton) : Prop :=
  grid_size a = grid_size b /\ game_type a = game_type b /\
  payoffs a = payoffs b /\ grid a = grid b.

(** A second generator that agrees with [uniform_half] on a 4 x 4 grid only. *)
Definition uniform_other : Z -> Z -> float := fun y x =>
  if (0 <=? y) && (y <? 4) && (0 <=? x) && (x <? 4) then uniform_half y x
  else 0.5%float.

Definition position_eq_dec (p q : Z * Z) : {p = q} + {p <> q}.
Proof. decide equality; apply Z.eq_dec. Defined.

(** The cells the clusters initial condition stamps: those at offset
    [(dy,dx)], with [dy*dy + dx*dx <= 64], from one of the four centres,
    wrapped modulo [N]. *)
Definition stamped (N y x : Z) : Prop :=
  exists cy cx dy dx,
    In (cy, cx) centers /\ -8 <= dy <= 8 /\ -8 <= dx <= 8 /\
    dy * dy + dx * dx <= 64 /\
    y = (cy + dy) mod N /\ x = (cx + dx) mod N.

(** [prog] turns the cells of [S] into cooperators and leaves the others. *)
Definition stamps (N : Z) (prog : ndarray Z -> result (ndarray Z))
    (S : Z -> Z -> Prop) : Prop :=
  forall g, square N g -> binary g ->
    exists g', prog g = Ok g' /\ square N g' /\ binary g' /\
      forall y x, 0 <= y < N -> 0 <= x < N ->
        (cell 0 g' y x = COOPERATE <-> cell 0 g y x = COOPERATE \/ S y x).

(** The number of neighbour positions of [(y,x)] that hold a cooperator,
    a position reached by several offsets counting once per offset. *)
Definition cooperating_neighbors (N : Z) (g : ndarray Z) (y x : Z) : nat :=
  List.length
    (filter (fun '(ny, nx) => cell 0 g ny nx =? COOPERATE) (neighbors N y x)).

(** The score of a cell whose first [k] scanned neighbours cooperate and
    whose other [8 - k] defect. *)
Definition sum_by_count (gt : string) (me : bool) (k : nat) : float :=
  fold_left (fun s b => (s + payoff_table gt me b)%float)
    (repeat true k ++ repeat false (8 - k)) 0%float.

(** The grid translated on the torus: cell [(y,x)] of the result is cell
    [(y + a, x + b)] of [g], wrapped modulo [N]. *)
Definition roll (a b N : Z) (g : ndarray Z) : ndarray Z :=
  tabulate N (fun y x => cell 0 g ((y + a) mod N) ((x + b) mod N)).

(** [self] with another grid. *)
Definition with_grid (self : StrategicAutomaton) (g : ndarray Z)
  : StrategicAutomaton :=
  {| grid_size := grid_size self; game_type := game_type self;
     payoffs := payoffs self; grid := g; cmap := cmap self |}.

(** The eight offsets other than (0,0) and all nine, in scan order. *)
Definition neighbor_offsets : list (Z * Z) :=
  [(-1, -1); (-1, 0); (-1, 1); (0, -1); (0, 1); (1, -1); (1, 0); (1, 1)].
Definition scan_offsets : list (Z * Z) :=
  [(-1, -1); (-1, 0); (-1, 1); (0, -1); (0, 0); (0, 1); (1, -1); (1, 0); (1, 1)].

(** Two prisoner's dilemma neighbourhoods of a central defector with three
    cooperating neighbours each. *)
Definition three_first : ndarray Z := [[0; 0; 0]; [1; 1; 1]; [1; 1; 1]].
Definition three_later : ndarray Z := [[1; 0; 0]; [0; 1; 1]; [1; 1; 1]].

(** ** run_and_save_gif

    Drawing and encoding belong to matplotlib and imageio, and either may
    raise.  [render g cmap name n] is the outcome of drawing grid [g] under
    colour map [cmap], titled with the variant [name] and the generation
    number [n], and reading the picture back; [mimsave filename images fps]
    is the outcome of [imageio.mimsave].  Console output is not modelled. *)

Section Rendering.
Variable image : Type.
Variable render : ndarray Z -> list string -> string -> Z -> result image.
Variable mimsave : string -> list image -> Z -> result unit.

(** [images[-1]] *)
Definition last_image (images : list image) : result image :=
  match rev images with
  | [] => Raise IndexError
  | im :: _ => Ok im
  end.

(** [run_and_save_gif], lines 175-214; the result is the automaton as the
    call leaves it. *)
Definition run_and_save_gif (self : StrategicAutomaton) (frames : Z)
    (filename : string) (final_pause_frames fps : Z)
  : result StrategicAutomaton :=
  '(self, images) <-
    foldM (fun '(self, images) i =>
      self <- step self ;;
      im <- render (grid self) (cmap self) (game_type self) (i + 1) ;;
      Ok (self, (images ++ [im])%list))
      (range frames) (self, []) ;;
  images <-
    foldM (fun images _ =>
      im <- last_image images ;;
      Ok (images ++ [im])%list)
      (range final_pause_frames) images ;;
  _ <- mimsave filename images fps ;;
  Ok self.
End Rendering.

(** A renderer that keeps the grid and the generation number, and an
    encoder that refuses an empty list of images and a rate that is not
    positive. *)
Definition snapshot_of (g : ndarray Z) (n : Z) : ndarray Z * Z := (g, n).
Definition snapshot
  : ndarray Z -> list string -> string -> Z -> result (ndarray Z * Z) :=
  fun g _ _ n => Ok (snapshot_of g n).
Definition strict_encoder
  : string -> list (ndarray Z * Z) -> Z -> result unit :=
  fun _ images fps =>
    match images with
    | [] => Raise ValueError
    | _ :: _ => if fps <=? 0 then Raise ValueError else Ok tt
    end.

(** A 7 x 7 prisoner's dilemma and a second grid that differs from its own
    only at (0,0) and (6,6), outside the 5 x 5 block around (3,3). *)
Definition wide : StrategicAutomaton :=
  {| grid_size := 7; game_type := "prisoner_clusters";
     payoffs := [("R", 3); ("T", 3.1); ("P", 1); ("S", 0)]%float;
     grid := [[0; 0; 0; 1; 0; 0; 0];
              [0; 0; 1; 1; 0; 0; 0];
              [0; 0; 0; 0; 0; 1; 0];
              [1; 0; 0; 1; 0; 0; 1];
              [0; 0; 0; 0; 0; 0; 0];
              [0; 1; 0; 0; 1; 0; 0];
              [0; 0; 0; 1; 0; 0; 0]];
     cmap := ["#1f77b4"; "#ff7f0e"] |}.
Definition wide_far : ndarray Z :=
  [[1; 0; 0; 1; 0; 0; 0];
   [0; 0; 1; 1; 0; 0; 0];
   [0; 0; 0; 0; 0; 1; 0];
   [1; 0; 0; 1; 0; 0; 1];
   [0; 0; 0; 0; 0; 0; 0];
   [0; 1; 0; 0; 1; 0; 0];
   [0; 0; 0; 1; 0; 0; 1]].

(** [0 <= d <= 1] as binary64 comparisons; false for NaN. *)
Definition in_unit_interval (d : float) : bool := ((0 <=? d) && (d <=? 1))%float.

(** A number below zero: negative and finite, or minus infinity. *)
Definition negative_result (x : spec_float) : Prop :=
  match x with
  | S754_finite true _ _ | S754_infinity true => True
  | _ => False
  end.

(** ** IEEE comparison is a strict weak order away from NaN *)

Ltac cmp_cases :=
  repeat match goal with
  | |- context [Pos.compare_cont Eq ?a ?b] =>
      change (Pos.compare_cont Eq a b) with (Pos.compare a b)
  | H : context [Pos.compare_cont Eq ?a ?b] |- _ =>
      change (Pos.compare_cont Eq a b) with (Pos.compare a b) in H
  end;
  repeat match goal with
  | H : context [Z.compare ?a ?b] |- _ =>
      destruct (Z.compare_spec a b); simpl in H; try discriminate H
  | H : context [Pos.compare ?a ?b] |- _ =>
      destruct (Pos.compare_spec a b); simpl in H; try discriminate H
  | |- context [Z.compare ?a ?b] => destruct (Z.compare_spec a b); simpl
  | |- context [Pos.compare ?a ?b] => destruct (Pos.compare_spec a b); simpl
  end; subst; try reflexivity; try discriminate; try lia; auto.

Lemma SFltb_trans (a b c : spec_float) :
  SFltb a b = true -> SFltb b c = true -> SFltb a c = true.
Proof.
  unfold SFltb, SFcompare.
  destruct a as [sa|sa| |sa ma ea], b as [sb|sb| |sb mb eb],
           c as [sc|sc| |sc mc ec];
    try destruct sa; try destruct sb; try destruct sc;
    try discriminate; try reflexivity; intros H1 H2; cmp_cases.
Qed.

Lemma SFltb_negtrans (a b c : spec_float) :
  b <> S754_nan -> SFltb a c = true -> SFltb a b = true \/ SFltb b c = true.
Proof.
  unfold SFltb, SFcompare.
  destruct a as [sa|sa| |sa ma ea], b as [sb|sb| |sb mb eb],
           c as [sc|sc| |sc mc ec];
    try destruct sa; try destruct sb; try destruct sc;
    try discriminate; try congruence; intros Hb H1;
    try (left; reflexivity); try (right; reflexivity); cmp_cases.
Qed.

Lemma ltb_trans (a b c : float) :
  (a <? b)%float = true -> (b <? c)%float = true -> (a <? c)%float = true.
Proof. rewrite !ltb_spec. apply SFltb_trans. Qed.

(** A number above minus infinity is not NaN, so it compares with all others. *)
Lemma ltb_negtrans (a b c : float) :
  (neg_infinity <? b)%float = true ->
  (a <? c)%float = true ->
  (a <? b)%float = true \/ (b <? c)%float = true.
Proof.
  rewrite !ltb_spec. intros Hb. apply SFltb_negtrans.
  intros E. rewrite E in Hb. unfold SFltb, SFcompare in Hb.
  destruct (Prim2SF neg_infinity); discriminate.
Qed.

(** ** Rounding: one minus a number above one is negative *)

Lemma Prim2SF_one : Prim2SF 1 = S754_finite false 4503599627370496 (-52).
Proof. vm_compute. reflexivity. Qed.
Lemma Prim2SF_zero : Prim2SF 0 = S754_zero false.
Proof. vm_compute. reflexivity. Qed.

Lemma digits2_bounds (m : positive) :
  2 ^ (Zpos (digits2_pos m) - 1) <= Zpos m < 2 ^ Zpos (digits2_pos m).
Proof.
  induction m as [m IH | m IH |]; cbn [digits2_pos].
  - rewrite Pos2Z.inj_succ.
    replace (Z.succ (Zpos (digits2_pos m)) - 1) with (Z.succ (Zpos (digits2_pos m) - 1)) by lia.
    rewrite !Z.pow_succ_r by lia. lia.
  - rewrite Pos2Z.inj_succ.
    replace (Z.succ (Zpos (digits2_pos m)) - 1) with (Z.succ (Zpos (digits2_pos m) - 1)) by lia.
    rewrite !Z.pow_succ_r by lia. lia.
  - cbn. lia.
Qed.

Lemma shr_1_m (r : shr_record) :
  0 <= shr_m r -> shr_m (shr_1 r) = shr_m r / 2.
Proof.
  destruct r as [m rr ss]. cbn [shr_m]. intros Hm.
  destruct m as [|p|p]; [reflexivity | | lia].
  destruct p as [p|p|]; cbn [shr_1 shr_m].
  - rewrite Pos2Z.inj_xI. apply (Z.div_unique _ 2 _ 1); lia.
  - rewrite Pos2Z.inj_xO. apply (Z.div_unique _ 2 _ 0); lia.
  - reflexivity.
Qed.

Lemma shr_iter_m (n : positive) :
  forall r, 0 <= shr_m r -> shr_m (iter_pos shr_1 n r) = shr_m r / 2 ^ Zpos n.
Proof.
  induction n as [n IH | n IH |]; intros r Hr; cbn [iter_pos].
  - assert (H1 : 0 <= shr_m (shr_1 r)) by (rewrite shr_1_m by exact Hr; apply Z.div_pos; lia).
    assert (H2 : 0 <= shr_m (iter_pos shr_1 n (shr_1 r)))
      by (rewrite IH by exact H1; apply Z.div_pos; [exact H1 | apply Z.pow_pos_nonneg; lia]).
    rewrite IH by exact H2. rewrite IH by exact H1. rewrite shr_1_m by exact Hr.
    rewrite !Z.div_div by (try apply Z.pow_pos_nonneg; lia).
    f_equal. change (Zpos n~1) with (2 * Zpos n + 1).
    replace (2 * Zpos n + 1) with (1 + Zpos n + Zpos n) by lia.
    rewrite !Z.pow_add_r by lia. change (2 ^ 1) with 2. lia.
  - assert (H2 : 0 <= shr_m (iter_pos shr_1 n r))
      by (rewrite IH by exact Hr; apply Z.div_pos; [exact Hr | apply Z.pow_pos_nonneg; lia]).
    rewrite IH by exact H2. rewrite IH by exact Hr.
    rewrite !Z.div_div by (try apply Z.pow_pos_nonneg; lia).
    f_equal. change (Zpos n~0) with (2 * Zpos n).
    replace (2 * Zpos n) with (Zpos n + Zpos n) by lia.
    rewrite !Z.pow_add_r by lia. lia.
  - rewrite shr_1_m by exact Hr. reflexivity.
Qed.

Lemma shr_record_of_loc_m (m : Z) (l : location) : shr_m (shr_record_of_loc m l) = m.
Proof. destruct l as [|[]]; reflexivity. Qed.

Lemma shr_fexp_pos (m : positive) (e : Z) (l : location) :
  -1074 <= e ->
  0 < shr_m (fst (shr_fexp prec emax (Zpos m) e l)) /\
  -1074 <= snd (shr_fexp prec emax (Zpos m) e l).
Proof.
  intros He. unfold shr_fexp, shr, fexp, SpecFloat.emin, prec, emax. cbn [Zdigits2].
  pose proof (digits2_bounds m) as Hd.
  destruct (Z.max (Zpos (digits2_pos m) + e - 53) (3 - 1024 - 53) - e) as [|n|n] eqn:En;
    cbn [fst snd]; rewrite ?shr_record_of_loc_m; try (split; lia).
  rewrite shr_iter_m by (rewrite shr_record_of_loc_m; lia).
  rewrite shr_record_of_loc_m. split; [|lia].
  apply Z.div_str_pos. split; [apply Z.pow_pos_nonneg; lia|].
  apply Z.le_trans with (2 ^ (Zpos (digits2_pos m) - 1)); [|lia].
  apply Z.pow_le_mono_r; lia.
Qed.

Lemma binary_round_aux_negative (m : positive) (e : Z) (l : location) :
  -1074 <= e -> negative_result (binary_round_aux prec emax true (Zpos m) e l).
Proof.
  intros He. unfold binary_round_aux.
  pose proof (shr_fexp_pos m e l He) as [H1 H2].
  destruct (shr_fexp prec emax (Zpos m) e l) as [mrs' e']. cbn [fst snd] in H1, H2.
  assert (Hr : exists m2, round_nearest_even (shr_m mrs') (loc_of_shr_record mrs') = Zpos m2).
  { unfold round_nearest_even.
    destruct (loc_of_shr_record mrs') as [|[]]; try destruct (Z.even (shr_m mrs'));
      destruct (shr_m mrs') as [|p|p]; try lia; try (eexists; reflexivity).
    all: cbn; eexists; reflexivity. }
  destruct Hr as (m2 & ->).
  pose proof (shr_fexp_pos m2 e' loc_Exact H2) as [H3 _].
  destruct (shr_fexp prec emax (Zpos m2) e' loc_Exact) as [mrs'' e'']. cbn [fst] in H3.
  destruct (shr_m mrs'') as [|p|p]; try lia.
  destruct (e'' <=? emax - prec); exact I.
Qed.

Lemma binary_round_negative (m : positive) (e : Z) :
  -1074 <= e -> negative_result (binary_round prec emax true m e).
Proof.
  intros He. unfold binary_round, shl_align.
  destruct (fexp prec emax (Zpos (digits2_pos m) + e) - e) as [|n|n] eqn:En;
    try (apply binary_round_aux_negative; exact He).
  apply binary_round_aux_negative.
  unfold fexp, SpecFloat.emin, prec, emax. lia.
Qed.

Lemma iter_xO_gt (d m : positive) : (m < Pos.iter xO m d)%positive.
Proof.
  induction d as [|d IH] using Pos.peano_ind.
  - cbn. lia.
  - rewrite Pos.iter_succ. lia.
Qed.

Lemma shl_align_same (m : positive) (e : Z) : shl_align m e e = (m, e).
Proof. unfold shl_align. rewrite Z.sub_diag. reflexivity. Qed.

Lemma shl_align_down (m : positive) (e e' : Z) :
  e' < e -> exists n, shl_align m e e' = (Pos.iter xO m n, e').
Proof.
  intros H. unfold shl_align. destruct (e' - e) as [|n|n] eqn:En; try lia.
  exists n. reflexivity.
Qed.

(** Subtracting a number above 1 from 1 gives a negative number or minus
    infinity, never a zero or NaN. *)
Lemma one_minus_above (m : positive) (e : Z) :
  SpecFloat.valid_binary prec emax (S754_finite false m e) = true ->
  SFltb (S754_finite false 4503599627370496 (-52)) (S754_finite false m e) = true ->
  negative_result
    (SF64sub (S754_finite false 4503599627370496 (-52)) (S754_finite false m e)).
Proof.
  intros Hv Hlt. unfold SF64sub, SFsub, cond_Zopp.
  change (IntDef.Z.min (-52) e) with (Z.min (-52) e).
  unfold SFltb, SFcompare in Hlt.
  cbn [SpecFloat.valid_binary] in Hv. unfold bounded, canonical_mantissa, fexp,
    SpecFloat.emin, prec, emax in Hv.
  apply andb_prop in Hv. destruct Hv as [Hc _]. apply Z.eqb_eq in Hc.
  pose proof (digits2_bounds m) as Hd.
  destruct (Z.compare_spec (-52) e) as [<- | Hlt' | Hgt]; [| |discriminate Hlt].
  - change (Pos.compare_cont Eq 4503599627370496 m)
      with (Pos.compare 4503599627370496 m) in Hlt.
    destruct (Pos.compare_spec 4503599627370496 m) as [|Hm|]; try discriminate Hlt.
    rewrite Z.min_id, !shl_align_same. cbn [fst].
    destruct (Zpos 4503599627370496 - Zpos m) as [|p|p] eqn:Ed; try lia.
    cbn [binary_normalize]. apply binary_round_negative. lia.
  - rewrite Z.min_l by lia. rewrite shl_align_same.
    destruct (shl_align_down m e (-52) Hlt') as (n & ->). cbn [fst].
    pose proof (iter_xO_gt n m) as Hi.
    assert (Hm : 2 ^ 52 <= Zpos m).
    { change (IntDef.Z.max (Z.pos (digits2_pos m) + e - 53) (3 - 1024 - 53))
        with (Z.max (Z.pos (digits2_pos m) + e - 53) (3 - 1024 - 53)) in Hc.
      replace (Zpos (digits2_pos m)) with 53 in Hd by lia. exact (proj1 Hd). }
    change (2 ^ 52) with 4503599627370496 in Hm.
    destruct (Zpos 4503599627370496 - Zpos (Pos.iter xO m n)) as [|p|p] eqn:Ed; try lia.
    cbn [binary_normalize]. apply binary_round_negative. lia.
Qed.

Lemma negative_result_ltb (x : spec_float) :
  negative_result x -> SFltb x (S754_zero false) = true.
Proof. destruct x as [s|s| |s m e]; try destruct s; cbn; tauto. Qed.

Lemma density_outside_unit (d : float) :
  in_unit_interval d = false ->
  is_nan (d + (1 - d - 0))%float = true \/
  (d <? 0)%float = true \/ (1 - d <? 0)%float = true.
Proof.
  unfold in_unit_interval. rewrite !leb_spec, !ltb_spec, sub_spec.
  unfold is_nan. rewrite eqb_spec, add_spec.
  rewrite Prim2SF_one, Prim2SF_zero.
  pose proof (Prim2SF_valid d) as Hv.
  destruct (Prim2SF d) as [s|s| |s m e] eqn:Hd.
  - destruct s; cbn; discriminate.
  - destruct s; cbn; intros _; [right; left | right; right]; reflexivity.
  - intros _. left. reflexivity.
  - destruct s.
    + intros _. right. left. reflexivity.
    + intros H. right. right. apply negative_result_ltb.
      apply one_minus_above; [exact Hv|].
      revert H. unfold SFleb, SFltb, SFcompare. cbn [andb].
      rewrite !Pos.compare_cont_spec. unfold Pos.switch_Eq.
      rewrite (Z.compare_antisym e (-52)), (Pos.compare_antisym m 4503599627370496).
      destruct (e ?= -52); cbn [CompOpp]; try discriminate; try reflexivity.
      destruct (m ?= 4503599627370496)%positive; cbn [CompOpp];
        try discriminate; reflexivity.
Qed.

(** ** The candidate scan picks the first maximum *)

Lemma scan_first_max (l : list (float * Z)) :
  Forall (fun c => (neg_infinity <? fst c)%float = true) l ->
  forall st,
    (fold_left scan1 l st = st /\
     Forall (fun c => (fst st <? fst c)%float = false) l) \/
    (exists i c,
        nth_error l i = Some c /\ fold_left scan1 l st = c /\
        (fst st <? fst c)%float = true /\
        (forall j c', (j < i)%nat -> nth_error l j = Some c' ->
                      (fst c' <? fst c)%float = true) /\
        (forall j c', (i < j)%nat -> nth_error l j = Some c' ->
                      (fst c <? fst c')%float = false)).
Proof.
  induction 1 as [|c l Hc Hl IH]; intros [m b].
  - left. split; [reflexivity | constructor].
  - simpl fold_left. unfold scan1 at 2.
    destruct (m <? fst c)%float eqn:Hm.
    + destruct (IH c) as [[E F] | (i & c' & Hn & E & Hlt & Hbefore & Hafter)].
      * right. exists O, c.
        split; [reflexivity|]. split; [exact E|]. split; [exact Hm|].
        split.
        -- intros j c' Hj. lia.
        -- intros [|j] c' Hj Hn; [lia|]. simpl in Hn.
           rewrite Forall_forall in F. apply F. eapply nth_error_In; eauto.
      * right. exists (S i), c'.
        split; [exact Hn|]. split; [exact E|].
        split; [eapply ltb_trans; eauto|]. split.
        -- intros [|j] c'' Hj Hn'; simpl in Hn'.
           ++ injection Hn' as Hcc. rewrite <- Hcc. exact Hlt.
           ++ apply (Hbefore j); [lia | exact Hn'].
        -- intros [|j] c'' Hj Hn'; [lia|]. simpl in Hn'.
           apply (Hafter j); [lia | exact Hn'].
    + destruct (IH (m, b)) as [[E F] | (i & c' & Hn & E & Hlt & Hbefore & Hafter)].
      * left. split; [exact E|]. constructor; [exact Hm | exact F].
      * right. exists (S i), c'.
        split; [exact Hn|]. split; [exact E|]. split; [exact Hlt|]. split.
        -- intros [|j] c'' Hj Hn'; simpl in Hn'.
           ++ injection Hn' as Hcc. rewrite <- Hcc.
              destruct (ltb_negtrans m (fst c) (fst c') Hc Hlt) as [K|K];
                [simpl in Hm; congruence | exact K].
           ++ apply (Hbefore j); [lia | exact Hn'].
        -- intros [|j] c'' Hj Hn'; [lia|]. simpl in Hn'.
           apply (Hafter j); [lia | exact Hn'].
Qed.

(** ** Loops and comprehensions that do not raise *)

Lemma foldM_inv {A S : Type} (P : S -> Prop)
    (body : S -> A -> result S) (h : S -> A -> S) (l : list A) :
  (forall s a, In a l -> P s -> body s a = Ok (h s a) /\ P (h s a)) ->
  forall s, P s -> foldM body l s = Ok (fold_left h l s) /\ P (fold_left h l s).
Proof.
  induction l as [|a l IH]; intros Hb s Hs; simpl.
  - split; [reflexivity | exact Hs].
  - destruct (Hb s a (or_introl eq_refl) Hs) as [E Hs']. rewrite E. simpl.
    apply IH; [|exact Hs']. intros s0 a0 Hin. apply Hb. right. exact Hin.
Qed.

Lemma foldM_pure {A S : Type}
    (body : S -> A -> result S) (h : S -> A -> S) (l : list A) :
  (forall s a, In a l -> body s a = Ok (h s a)) ->
  forall s, foldM body l s = Ok (fold_left h l s).
Proof.
  intros Hb s.
  apply (foldM_inv (fun _ => True) body h l); [|exact I].
  intros s0 a Hin _. split; [apply Hb; exact Hin | exact I].
Qed.

Lemma mapM_pure {A B : Type} (f : A -> result B) (h : A -> B) (l : list A) :
  (forall a, In a l -> f a = Ok (h a)) -> mapM f l = Ok (map h l).
Proof.
  induction l as [|a l IH]; intros Hf; simpl.
  - reflexivity.
  - rewrite (Hf a (or_introl eq_refl)). simpl.
    rewrite IH; [reflexivity|]. intros a0 Hin. apply Hf. right. exact Hin.
Qed.

(** ** Ranges *)

Lemma In_range2 (lo hi k : Z) : In k (range2 lo hi) <-> lo <= k < hi.
Proof.
  unfold range2. rewrite in_map_iff. split.
  - intros (n & <- & Hn). apply in_seq in Hn. lia.
  - intros Hk. exists (Z.to_nat (k - lo)). split; [lia|]. apply in_seq. lia.
Qed.

Lemma In_range (N k : Z) : In k (range N) <-> 0 <= k < N.
Proof. apply In_range2. Qed.

Lemma length_range (N : Z) : List.length (range N) = Z.to_nat N.
Proof.
  unfold range, range2. rewrite length_map, length_seq. f_equal. lia.
Qed.

Lemma nth_range (N k d : Z) : 0 <= k < N -> nth (Z.to_nat k) (range N) d = k.
Proof.
  intros Hk. unfold range, range2.
  rewrite (nth_indep _ d (0 + Z.of_nat 0)) by (rewrite length_map, length_seq; lia).
  rewrite (map_nth (fun n => 0 + Z.of_nat n)), seq_nth by lia. lia.
Qed.

(** ** Reading and writing square arrays *)

Section Arrays.
Context {A : Type} (d : A).

Lemma square_row (N : Z) (g : ndarray A) (y : Z) :
  square N g -> 0 <= y < N -> len (nth (Z.to_nat y) g []) = N.
Proof.
  intros [Hl Hr] Hy. rewrite Forall_forall in Hr. apply Hr.
  apply nth_In. unfold len in Hl. lia.
Qed.

Lemma getitem_square (N : Z) (g : ndarray A) (y x : Z) :
  square N g -> 0 <= y < N -> 0 <= x < N ->
  getitem g y x = Ok (cell d g y x).
Proof.
  intros Hsq Hy Hx. pose proof (square_row N g y Hsq Hy) as Hrow.
  destruct Hsq as [Hl _]. unfold getitem, norm_index, cell.
  rewrite Hl.
  replace (y <? 0) with false by lia.
  replace ((0 <=? y) && (y <? N)) with true by lia. simpl.
  rewrite (nth_error_nth' g []) by (unfold len in Hl; lia).
  rewrite Hrow.
  replace (x <? 0) with false by lia.
  replace ((0 <=? x) && (x <? N)) with true by lia. simpl.
  rewrite (nth_error_nth' _ d) by (unfold len in Hrow; lia).
  reflexivity.
Qed.

Lemma setitem_square (N : Z) (g : ndarray A) (y x : Z) (v : A) :
  square N g -> 0 <= y < N -> 0 <= x < N ->
  setitem g y x v = Ok (write g y x v).
Proof.
  intros Hsq Hy Hx. pose proof (square_row N g y Hsq Hy) as Hrow.
  destruct Hsq as [Hl _]. unfold setitem, norm_index, write.
  rewrite Hl.
  replace (y <? 0) with false by lia.
  replace ((0 <=? y) && (y <? N)) with true by lia. simpl.
  rewrite (nth_error_nth' g []) by (unfold len in Hl; lia).
  rewrite Hrow.
  replace (x <? 0) with false by lia.
  replace ((0 <=? x) && (x <? N)) with true by lia. simpl.
  reflexivity.
Qed.

Lemma length_list_set {B : Type} (l : list B) (i : nat) (v : B) :
  List.length (list_set l i v) = List.length l.
Proof.
  revert i; induction l as [|a l IH]; intros [|i]; simpl; auto.
Qed.

Lemma nth_list_set {B : Type} (l : list B) (i j : nat) (v e : B) :
  (i < List.length l)%nat ->
  nth j (list_set l i v) e = if Nat.eqb j i then v else nth j l e.
Proof.
  revert i j; induction l as [|a l IH]; intros [|i] [|j] Hi; simpl in *;
    try lia; try reflexivity.
  apply IH. lia.
Qed.

Lemma In_list_set {B : Type} (l : list B) (i : nat) (v b : B) :
  In b (list_set l i v) -> b = v \/ In b l.
Proof.
  revert i; induction l as [|a l IH]; intros [|i]; simpl; try tauto.
  - intros [H|H]; auto.
  - intros [H|H]; auto. destruct (IH i H); auto.
Qed.

Lemma square_write (N : Z) (g : ndarray A) (y x : Z) (v : A) :
  square N g -> 0 <= y < N -> 0 <= x < N -> square N (write g y x v).
Proof.
  intros Hsq Hy Hx. pose proof (square_row N g y Hsq Hy) as Hrow.
  destruct Hsq as [Hl Hr]. unfold square, write, len in *. split.
  - rewrite length_list_set. exact Hl.
  - rewrite Forall_forall in *. intros row Hin.
    apply In_list_set in Hin. destruct Hin as [-> | Hin]; [|auto].
    unfold len. rewrite length_list_set. exact Hrow.
Qed.

Lemma cell_write (N : Z) (g : ndarray A) (y x y' x' : Z) (v : A) :
  square N g -> 0 <= y < N -> 0 <= x < N -> 0 <= y' -> 0 <= x' ->
  cell d (write g y x v) y' x' =
    if (y' =? y) && (x' =? x) then v else cell d g y' x'.
Proof.
  intros Hsq Hy Hx Hy' Hx'. pose proof (square_row N g y Hsq Hy) as Hrow.
  destruct Hsq as [Hl Hr]. unfold cell, write, len in *.
  rewrite nth_list_set by lia.
  destruct (Z.eqb_spec y' y) as [->|Hne].
  - rewrite Nat.eqb_refl. rewrite nth_list_set by lia.
    destruct (Z.eqb_spec x' x) as [->|Hnx].
    + rewrite Nat.eqb_refl. reflexivity.
    + replace (Nat.eqb (Z.to_nat x') (Z.to_nat x)) with false; [reflexivity|].
      symmetry. apply Nat.eqb_neq. lia.
  - replace (Nat.eqb (Z.to_nat y') (Z.to_nat y)) with false; [reflexivity|].
    symmetry. apply Nat.eqb_neq. lia.
Qed.

Lemma square_tabulate (N : Z) (f : Z -> Z -> A) :
  0 <= N -> square N (tabulate N f).
Proof.
  intros HN. unfold square, tabulate, len. split.
  - rewrite length_map, length_range. lia.
  - rewrite Forall_forall. intros row Hin. apply in_map_iff in Hin.
    destruct Hin as (y & <- & _). rewrite length_map, length_range. lia.
Qed.

Lemma cell_tabulate (N : Z) (f : Z -> Z -> A) (y x : Z) :
  0 <= y < N -> 0 <= x < N -> cell d (tabulate N f) y x = f y x.
Proof.
  intros Hy Hx. unfold cell, tabulate.
  rewrite (nth_indep _ [] (map (fun x0 => f 0 x0) (range N)))
    by (rewrite length_map, length_range; lia).
  rewrite (map_nth (fun y0 => map (fun x0 => f y0 x0) (range N)) (range N) 0).
  rewrite (nth_range N y 0 Hy).
  rewrite (nth_indep _ d (f y 0)) by (rewrite length_map, length_range; lia).
  rewrite (map_nth (fun x0 => f y x0) (range N) 0).
  rewrite (nth_range N x 0 Hx). reflexivity.
Qed.

(** Two square arrays with the same cells are the same array. *)
Lemma square_ext (N : Z) (g g' : ndarray A) :
  square N g -> square N g' ->
  (forall y x, 0 <= y < N -> 0 <= x < N -> cell d g y x = cell d g' y x) ->
  g = g'.
Proof.
  intros Hg Hg' Hc.
  apply (nth_ext g g' [] []).
  - destruct Hg as [Hl _], Hg' as [Hl' _]. unfold len in *. lia.
  - intros i Hi.
    assert (Hy : 0 <= Z.of_nat i < N)
      by (destruct Hg as [Hl _]; unfold len in Hl; lia).
    pose proof (square_row N g _ Hg Hy) as R.
    pose proof (square_row N g' _ Hg' Hy) as R'.
    rewrite Nat2Z.id in R, R'. unfold len in R, R'.
    apply (nth_ext _ _ d d); [lia|].
    intros j Hj. specialize (Hc (Z.of_nat i) (Z.of_nat j) Hy).
    unfold cell in Hc. rewrite !Nat2Z.id in Hc. apply Hc. lia.
Qed.

(** Writing [f y x] at every cell, row by row, yields the table of [f]. *)
Lemma write_row (N : Z) (f : Z -> A) (y : Z) (xs : list Z) :
  0 <= y < N -> (forall x, In x xs -> 0 <= x < N) ->
  forall g, square N g ->
    let g' := fold_left (fun g x => write g y x (f x)) xs g in
    square N g' /\
    forall y' x', 0 <= y' -> 0 <= x' ->
      cell d g' y' x' =
        if (y' =? y) && existsb (Z.eqb x') xs then f x' else cell d g y' x'.
Proof.
  intros Hy. induction xs as [|x xs IH]; intros Hxs g Hg; simpl.
  - split; [exact Hg|]. intros y' x' _ _. rewrite andb_false_r. reflexivity.
  - assert (Hx : 0 <= x < N) by (apply Hxs; left; reflexivity).
    destruct (IH (fun x0 H => Hxs x0 (or_intror H)) (write g y x (f x))
                 (square_write N g y x (f x) Hg Hy Hx)) as [Hsq Hcell].
    split; [exact Hsq|]. intros y' x' Hy' Hx'.
    rewrite (Hcell y' x' Hy' Hx'), (cell_write N g y x y' x' (f x) Hg Hy Hx Hy' Hx').
    destruct (Z.eqb_spec y' y) as [->|]; simpl; [|reflexivity].
    destruct (Z.eqb_spec x' x) as [->|]; simpl.
    + destruct (existsb (Z.eqb x) xs); reflexivity.
    + reflexivity.
Qed.

Lemma write_rows (N : Z) (f : Z -> Z -> A) (ys : list Z) :
  (forall y, In y ys -> 0 <= y < N) ->
  forall g, square N g ->
    let g' := fold_left (fun g y =>
                fold_left (fun g x => write g y x (f y x)) (range N) g) ys g in
    square N g' /\
    forall y' x', 0 <= y' -> 0 <= x' < N ->
      cell d g' y' x' =
        if existsb (Z.eqb y') ys then f y' x' else cell d g y' x'.
Proof.
  induction ys as [|y ys IH]; intros Hys g Hg; simpl.
  - split; [exact Hg|]. reflexivity.
  - assert (Hy : 0 <= y < N) by (apply Hys; left; reflexivity).
    destruct (write_row N (f y) y (range N) Hy
                (fun x H => proj1 (In_range N x) H) g Hg) as [Hsq1 Hc1].
    destruct (IH (fun y0 H => Hys y0 (or_intror H)) _ Hsq1) as [Hsq Hcell].
    split; [exact Hsq|]. intros y' x' Hy' Hx'.
    rewrite (Hcell y' x' Hy' Hx'), (Hc1 y' x' Hy' (proj1 Hx')).
    assert (Ex : existsb (Z.eqb x') (range N) = true).
    { apply existsb_exists. exists x'. split; [apply In_range; exact Hx'|].
      apply Z.eqb_refl. }
    rewrite Ex, andb_true_r.
    destruct (Z.eqb_spec y' y) as [->|]; simpl.
    + destruct (existsb (Z.eqb y) ys); reflexivity.
    + reflexivity.
Qed.

Lemma write_all (N : Z) (f : Z -> Z -> A) (g : ndarray A) :
  square N g ->
  fold_left (fun g y =>
    fold_left (fun g x => write g y x (f y x)) (range N) g) (range N) g
  = tabulate N f.
Proof.
  intros Hg.
  assert (HN : 0 <= N) by (destruct Hg as [Hl _]; unfold len in Hl; lia).
  destruct (write_rows N f (range N) (fun y H => proj1 (In_range N y) H) g Hg)
    as [Hsq Hcell].
  apply (square_ext N); [exact Hsq | apply square_tabulate; exact HN |].
  intros y x Hy Hx. rewrite (Hcell y x (proj1 Hy) Hx), cell_tabulate by assumption.
  replace (existsb (Z.eqb y) (range N)) with true; [reflexivity|].
  symmetry. apply existsb_exists. exists y.
  split; [apply In_range; exact Hy | apply Z.eqb_refl].
Qed.
End Arrays.

(** ** Fitness *)

Lemma interaction_ok (self : StrategicAutomaton) (my nb : Z) (score : float) :
  valid_game_type (game_type self) ->
  _get_payoffs (game_type self) = Ok (payoffs self) ->
  interaction self my nb score
  = Ok (score + payoff_term (game_type self) my nb)%float.
Proof.
  destruct self as [N gt p g c]. simpl. intros Hgt Hp.
  unfold interaction, payoff_term, payoff_table. simpl.
  destruct Hgt as [-> | [-> | ->]]; vm_compute in Hp;
    injection Hp as <-; cbn;
    destruct (my =? COOPERATE), (nb =? COOPERATE); reflexivity.
Qed.

Lemma wrap_bound (N i : Z) : 1 <= N -> 0 <= i mod N < N.
Proof. intros. apply Z.mod_pos_bound. lia. Qed.

Lemma get_fitness_ok (self : StrategicAutomaton) (g : ndarray Z) (y x : Z) :
  valid_game_type (game_type self) ->
  _get_payoffs (game_type self) = Ok (payoffs self) ->
  square (grid_size self) g ->
  0 <= y < grid_size self -> 0 <= x < grid_size self ->
  _get_fitness self y x g
  = Ok (fitness_sum (game_type self) (grid_size self) g y x).
Proof.
  intros Hgt Hp Hsq Hy Hx. set (N := grid_size self) in *.
  assert (HN : 1 <= N) by lia.
  unfold _get_fitness. rewrite (getitem_square 0 N g y x Hsq Hy Hx). cbn [bind].
  rewrite (foldM_pure _
    (fun score dy =>
       fold_left (fun score dx =>
         if (dy =? 0) && (dx =? 0) then score
         else (score + payoff_term (game_type self) (cell 0%Z g y x)
                         (cell 0%Z g ((y + dy) mod N) ((x + dx) mod N)))%float)
         offsets score)).
  - reflexivity.
  - intros s dy _. apply foldM_pure. intros s' dx _.
    destruct ((dy =? 0) && (dx =? 0)); [reflexivity|].
    fold N. unfold py_mod. replace (N =? 0) with false by lia. cbn [bind].
    rewrite (getitem_square 0 N g _ _ Hsq (wrap_bound N _ HN) (wrap_bound N _ HN)).
    cbn [bind]. apply interaction_ok; assumption.
Qed.

(** Every sum of eight entries of one row of a payoff table is an ordinary
    number: it lies above minus infinity (and so is not NaN). *)
Lemma eight_terms_above (gt : string) (c b1 b2 b3 b4 b5 b6 b7 b8 : bool) :
  valid_game_type gt ->
  (neg_infinity <?
     fold_left (fun s b => s + payoff_table gt c b)
       [b1; b2; b3; b4; b5; b6; b7; b8] 0)%float = true.
Proof.
  intros [-> | [-> | ->]];
    destruct c, b1, b2, b3, b4, b5, b6, b7, b8; vm_compute; reflexivity.
Qed.

Lemma fitness_above (gt : string) (N : Z) (g : ndarray Z) (y x : Z) :
  valid_game_type gt ->
  (neg_infinity <? fitness_sum gt N g y x)%float = true.
Proof.
  intros Hgt. unfold fitness_sum, neighbors, offsets, payoff_term.
  cbn [flat_map map app Z.eqb andb fold_left].
  apply (eight_terms_above gt (cell 0 g y x =? COOPERATE)
           (cell 0 g ((y + -1) mod N) ((x + -1) mod N) =? COOPERATE)
           (cell 0 g ((y + -1) mod N) ((x + 0) mod N) =? COOPERATE)
           (cell 0 g ((y + -1) mod N) ((x + 1) mod N) =? COOPERATE)
           (cell 0 g ((y + 0) mod N) ((x + -1) mod N) =? COOPERATE)
           (cell 0 g ((y + 0) mod N) ((x + 1) mod N) =? COOPERATE)
           (cell 0 g ((y + 1) mod N) ((x + -1) mod N) =? COOPERATE)
           (cell 0 g ((y + 1) mod N) ((x + 0) mod N) =? COOPERATE)
           (cell 0 g ((y + 1) mod N) ((x + 1) mod N) =? COOPERATE) Hgt).
Qed.

(** ** One generation *)

Lemma best_takes_over_ok (self : StrategicAutomaton) (y x : Z) :
  square (grid_size self) (grid self) ->
  0 <= y < grid_size self -> 0 <= x < grid_size self ->
  best_takes_over self
    (tabulate (grid_size self)
       (fitness_sum (game_type self) (grid_size self) (grid self))) y x
  = Ok (winner (game_type self) (grid_size self) (grid self) y x).
Proof.
  intros Hsq Hy Hx. set (N := grid_size self) in *.
  set (F := fitness_sum (game_type self) N (grid self)).
  assert (HN : 1 <= N) by lia.
  unfold best_takes_over.
  rewrite (foldM_pure _
    (fun st dy =>
       fold_left (fun st dx =>
         scan1 st (F ((y + dy) mod N) ((x + dx) mod N),
                   cell 0 (grid self) ((y + dy) mod N) ((x + dx) mod N)))
         offsets st)).
  - reflexivity.
  - intros [m0 b0] dy _. cbv beta iota. apply foldM_pure. intros [m b] dx _.
    fold N. unfold py_mod. replace (N =? 0) with false by lia. cbn [bind].
    rewrite (getitem_square 0%float N (tabulate N F) _ _
               (square_tabulate N F ltac:(lia))
               (wrap_bound N _ HN) (wrap_bound N _ HN)).
    cbn [bind].
    rewrite (cell_tabulate 0%float N F _ _ (wrap_bound N _ HN) (wrap_bound N _ HN)).
    unfold scan1. simpl fst.
    destruct (m <? F ((y + dy) mod N) ((x + dx) mod N))%float; [|reflexivity].
    rewrite (getitem_square 0 N (grid self) _ _ Hsq
               (wrap_bound N _ HN) (wrap_bound N _ HN)).
    reflexivity.
Qed.

Lemma step_ok (self : StrategicAutomaton) :
  valid_game_type (game_type self) ->
  _get_payoffs (game_type self) = Ok (payoffs self) ->
  square (grid_size self) (grid self) ->
  step self = Ok {| grid_size := grid_size self; game_type := game_type self;
                    payoffs := payoffs self; grid := next_grid self;
                    cmap := cmap self |}.
Proof.
  intros Hgt Hp Hsq. set (N := grid_size self) in *.
  set (gt := game_type self) in *.
  unfold step. fold N.
  rewrite (mapM_pure _
    (fun y => map (fun x => fitness_sum gt N (grid self) y x) (range N))).
  2:{ intros y Hy. apply In_range in Hy. apply mapM_pure. intros x Hx.
      apply In_range in Hx. apply get_fitness_ok; assumption. }
  cbn [bind].
  change (map (fun y => map (fun x => fitness_sum gt N (grid self) y x) (range N))
            (range N))
    with (tabulate N (fitness_sum gt N (grid self))).
  set (W := fun y x => snd (winner gt N (grid self) y x)).
  destruct (foldM_inv (square N)
    (fun next_grid y =>
       foldM (fun next_grid x =>
         '(_, best_strategy) <-
            best_takes_over self
              (tabulate N (fitness_sum gt N (grid self))) y x ;;
         setitem next_grid y x best_strategy) (range N) next_grid)
    (fun next y => fold_left (fun next x => write next y x (W y x)) (range N) next)
    (range N)) with (s := grid self) as [E _].
  - intros next y Hy Hnext. apply In_range in Hy.
    apply (foldM_inv (square N)); [|exact Hnext].
    intros next' x Hx Hnext'. apply In_range in Hx.
    subst N gt. rewrite (best_takes_over_ok self y x Hsq Hy Hx).
    cbn [bind]. unfold W.
    destruct (winner (game_type self) (grid_size self) (grid self) y x) as [m b].
    simpl snd. split.
    + apply (setitem_square (grid_size self)); assumption.
    + apply square_write; assumption.
  - exact Hsq.
  - rewrite E. cbn [bind]. rewrite (write_all 0 N W (grid self) Hsq).
    reflexivity.
Qed.

(** ** Arrays built by the initialisers *)

Lemma tabulate_ext {A : Type} (N : Z) (f f' : Z -> Z -> A) :
  (forall y x, 0 <= y < N -> 0 <= x < N -> f y x = f' y x) ->
  tabulate N f = tabulate N f'.
Proof.
  intros H. unfold tabulate. apply map_ext_in. intros y Hy.
  apply map_ext_in. intros x Hx. apply H; apply In_range; assumption.
Qed.

Lemma np_full_ok {A : Type} (N : Z) (v : A) :
  0 <= N -> np_full N N v = Ok (tabulate N (fun _ _ => v)).
Proof.
  intros HN. unfold np_full, tabulate.
  replace ((N <? 0) || (N <? 0)) with false by lia.
  rewrite !map_const, length_range. reflexivity.
Qed.

Lemma np_full_neg {A : Type} (N : Z) (v : A) :
  N < 0 -> np_full N N v = Raise ValueError.
Proof.
  intros HN. unfold np_full.
  replace ((N <? 0) || (N <? 0)) with true by lia. reflexivity.
Qed.

Lemma length_imap_from {A B : Type} (f : Z -> A -> B) (i : Z) (l : list A) :
  List.length (imap_from f i l) = List.length l.
Proof. revert i; induction l as [|a l IH]; intros i; simpl; auto. Qed.

Lemma nth_imap_from {A B : Type} (f : Z -> A -> B) (l : list A) (e : B) (e' : A) :
  forall (i : Z) (k : nat), (k < List.length l)%nat ->
    nth k (imap_from f i l) e = f (i + Z.of_nat k) (nth k l e').
Proof.
  induction l as [|a l IH]; intros i [|k] Hk; simpl in *; try lia.
  - f_equal. lia.
  - rewrite (IH (i + 1) k) by lia. f_equal. lia.
Qed.

Lemma assign_slice_ok {A : Type} (d : A) (N : Z) (g : ndarray A)
    (y0 y1 x0 x1 : option Z) (v : A) :
  square N g ->
  assign_slice g y0 y1 x0 x1 v
  = tabulate N (fun y x =>
      if in_slice N y0 y1 y && in_slice N x0 x1 x then v else cell d g y x).
Proof.
  intros Hsq.
  assert (HN : 0 <= N) by (destruct Hsq as [Hl _]; unfold len in Hl; lia).
  assert (Hlen : List.length g = Z.to_nat N)
    by (destruct Hsq as [Hl _]; unfold len in Hl; lia).
  assert (Hrow : forall k, (k < Z.to_nat N)%nat ->
                           List.length (nth k g []) = Z.to_nat N).
  { intros k Hk.
    pose proof (square_row N g (Z.of_nat k) Hsq ltac:(lia)) as R.
    rewrite Nat2Z.id in R. unfold len in R. lia. }
  apply (square_ext d N); [| apply square_tabulate; exact HN |].
  - unfold assign_slice, square, len. split.
    + rewrite length_imap_from. lia.
    + apply Forall_nth. intros k e Hk. rewrite length_imap_from in Hk.
      rewrite (nth_imap_from _ g e []) by exact Hk.
      rewrite length_imap_from, Hrow by lia. lia.
  - intros y x Hy Hx. rewrite cell_tabulate by assumption.
    unfold assign_slice, cell.
    rewrite (nth_imap_from _ g [] []) by lia.
    rewrite (nth_imap_from _ _ d d) by (rewrite Hrow; lia).
    rewrite !Z2Nat.id by lia. simpl.
    destruct Hsq as [-> _]. unfold len. rewrite Hrow by lia.
    rewrite Z2Nat.id by lia. reflexivity.
Qed.

Lemma binary_tabulate (N : Z) (f : Z -> Z -> Z) :
  (forall y x, 0 <= y < N -> 0 <= x < N -> strategy (f y x)) ->
  binary (tabulate N f).
Proof.
  intros H. unfold binary, tabulate. rewrite Forall_forall. intros row Hin.
  apply in_map_iff in Hin. destruct Hin as (y & <- & Hy).
  rewrite Forall_forall. intros c Hc.
  apply in_map_iff in Hc. destruct Hc as (x & <- & Hx).
  apply H; apply In_range; assumption.
Qed.

Lemma binary_cell (N : Z) (g : ndarray Z) (y x : Z) :
  square N g -> binary g -> 0 <= y < N -> 0 <= x < N ->
  strategy (cell 0 g y x).
Proof.
  intros Hsq Hb Hy Hx. pose proof (square_row N g y Hsq Hy) as Hrow.
  destruct Hsq as [Hl _]. unfold binary, cell, len in *.
  rewrite Forall_forall in Hb.
  assert (Hin : In (nth (Z.to_nat y) g []) g) by (apply nth_In; lia).
  specialize (Hb _ Hin). rewrite Forall_forall in Hb. apply Hb.
  apply nth_In. lia.
Qed.

Lemma Forall_list_set {B : Type} (P : B -> Prop) (l : list B) (i : nat) (v : B) :
  Forall P l -> P v -> Forall P (list_set l i v).
Proof.
  intros Hl Hv. rewrite Forall_forall in *. intros b Hb.
  apply In_list_set in Hb. destruct Hb as [-> | Hb]; auto.
Qed.

Lemma binary_write (g : ndarray Z) (y x v : Z) :
  binary g -> strategy v -> binary (write g y x v).
Proof.
  intros Hb Hv. unfold binary, write. apply Forall_list_set; [exact Hb|].
  apply Forall_list_set; [|exact Hv].
  destruct (Nat.lt_ge_cases (Z.to_nat y) (List.length g)) as [Hlt|Hge].
  - unfold binary in Hb. rewrite Forall_forall in Hb. apply Hb.
    apply nth_In. exact Hlt.
  - rewrite nth_overflow by exact Hge. constructor.
Qed.

(** A comprehension that succeeded has one result per element. *)
Lemma mapM_inv {A B : Type} (f : A -> result B) (l : list A) :
  forall r, mapM f l = Ok r ->
    List.length r = List.length l /\
    forall b, In b r -> exists a, In a l /\ f a = Ok b.
Proof.
  induction l as [|a l IH]; simpl; intros r E.
  - injection E as <-. split; [reflexivity | intros b []].
  - destruct (f a) as [b0|e] eqn:Ea; simpl in E; [|discriminate].
    destruct (mapM f l) as [bs|e] eqn:El; simpl in E; [|discriminate].
    injection E as <-. destruct (IH bs eq_refl) as [Hlen Hin]. split.
    + simpl. f_equal. exact Hlen.
    + intros b [<- | Hb].
      * exists a. split; [left; reflexivity | exact Ea].
      * destruct (Hin b Hb) as (a' & Ha' & Ea'). exists a'. split; [right|]; assumption.
Qed.

Lemma mapM_ext {A B : Type} (f f' : A -> result B) (l : list A) :
  (forall a, In a l -> f a = f' a) -> mapM f l = mapM f' l.
Proof.
  induction l as [|a l IH]; intros H; simpl; [reflexivity|].
  rewrite (H a (or_introl eq_refl)), IH; [reflexivity|].
  intros a0 Ha0. apply H. right. exact Ha0.
Qed.

Lemma random_choice_valid (uniform : Z -> Z -> float) (N : Z)
    (p : list float) (g : ndarray Z) :
  np_random_choice uniform [COOPERATE; DEFECT] N N p = Ok g ->
  square N g /\ binary g.
Proof.
  unfold np_random_choice.
  destruct (negb (len p =? len [COOPERATE; DEFECT])); [discriminate|].
  destruct (is_nan (kahan_sum p)); [discriminate|].
  destruct (existsb (fun q => (q <? 0)%float) p); [discriminate|].
  destruct (atol <? abs (kahan_sum p - 1))%float; [discriminate|].
  destruct ((N <? 0) || (N <? 0)) eqn:HN; [discriminate|].
  intros E. apply mapM_inv in E. destruct E as [Hlen Hrows].
  rewrite length_range in Hlen.
  assert (Hr : forall row, In row g ->
             len row = N /\ Forall (fun c => c = COOPERATE \/ c = DEFECT) row).
  { intros row Hin. destruct (Hrows row Hin) as (y & _ & Ey).
    apply mapM_inv in Ey. destruct Ey as [Hl Hc].
    rewrite length_range in Hl. split; [unfold len; lia|].
    rewrite Forall_forall. intros c Hcin.
    destruct (Hc c Hcin) as (x & _ & Ex).
    destruct (nth_error [COOPERATE; DEFECT] _) as [v|] eqn:En; [|discriminate].
    injection Ex as <-. apply nth_error_In in En.
    destruct En as [<- | [<- | []]]; auto. }
  split.
  - split; [unfold len; lia|]. rewrite Forall_forall. intros row Hin.
    apply (Hr row Hin).
  - unfold binary. rewrite Forall_forall. intros row Hin. apply (Hr row Hin).
Qed.

Lemma foldM_keeps {A S : Type} (P : S -> Prop)
    (body : S -> A -> result S) (l : list A) :
  (forall s a, In a l -> P s -> exists s', body s a = Ok s' /\ P s') ->
  forall s, P s -> exists s', foldM body l s = Ok s' /\ P s'.
Proof.
  induction l as [|a l IH]; intros Hb s Hs; simpl.
  - exists s. split; [reflexivity | exact Hs].
  - destruct (Hb s a (or_introl eq_refl) Hs) as (s1 & E & Hs1). rewrite E.
    cbn [bind]. apply IH; [|exact Hs1].
    intros s0 a0 Hin. apply Hb. right. exact Hin.
Qed.

Lemma stamp_clusters_ok (N : Z) (g : ndarray Z) :
  1 <= N -> square N g -> binary g ->
  exists g', stamp_clusters N g = Ok g' /\ square N g' /\ binary g'.
Proof.
  intros HN Hsq Hb. unfold stamp_clusters.
  apply (foldM_keeps (fun g => square N g /\ binary g)); [|split; assumption].
  intros g1 [cy cx] _ P1.
  apply (foldM_keeps (fun g => square N g /\ binary g)); [|exact P1].
  intros g2 dy _ P2.
  apply (foldM_keeps (fun g => square N g /\ binary g)); [|exact P2].
  intros g3 dx _ [S3 B3].
  destruct (dy * dy + dx * dx <=? 64).
  - unfold py_mod. replace (N =? 0) with false by lia. cbn [bind].
    rewrite (setitem_square N g3 _ _ COOPERATE S3
               (wrap_bound N _ HN) (wrap_bound N _ HN)).
    eexists. split; [reflexivity|]. split.
    + apply square_write; [exact S3 | apply wrap_bound; exact HN ..].
    + apply binary_write; [exact B3 | left; reflexivity].
  - exists g3. split; [reflexivity|]. split; assumption.
Qed.

Lemma get_payoffs_valid (gt : string) (p : dict float) :
  _get_payoffs gt = Ok p -> valid_game_type gt.
Proof.
  unfold _get_payoffs, valid_game_type.
  destruct (String.eqb_spec gt "prisoner_clusters"); [auto|].
  destruct (String.eqb_spec gt "hawk_dove_spirals"); [auto|].
  destruct (String.eqb_spec gt "stag_hunt"); [auto|]. discriminate.
Qed.

Lemma get_payoffs_total (gt : string) :
  valid_game_type gt -> exists p, _get_payoffs gt = Ok p.
Proof. intros [-> | [-> | ->]]; eexists; reflexivity. Qed.

Lemma get_payoffs_error (gt : string) (e : exn) :
  _get_payoffs gt = Raise e -> e = ValueError /\ ~ valid_game_type gt.
Proof.
  unfold _get_payoffs, valid_game_type.
  destruct (String.eqb_spec gt "prisoner_clusters"); [discriminate|].
  destruct (String.eqb_spec gt "hawk_dove_spirals"); [discriminate|].
  destruct (String.eqb_spec gt "stag_hunt"); [discriminate|].
  intros E. injection E as <-. split; [reflexivity | tauto].
Qed.

(** The split pattern and the invader block as tables. *)
Lemma split_grid (uniform : Z -> Z -> float) (N : Z) (d : float) (sz : Z) :
  0 <= N ->
  _initialize_grid uniform N "split" d sz
  = Ok (tabulate N (fun y x => if x <? N / 2 then COOPERATE else DEFECT)).
Proof.
  intros HN. unfold _initialize_grid. cbn [String.eqb Ascii.eqb Bool.eqb].
  rewrite np_full_ok by exact HN. cbn [bind].
  rewrite (assign_slice_ok 0 N) by (apply square_tabulate; exact HN).
  f_equal. apply tabulate_ext. intros y x Hy Hx.
  rewrite cell_tabulate by assumption.
  unfold in_slice, slice_bound.
  assert (0 <= N / 2 <= N) by (split; [apply Z.div_pos | apply Z.div_le_upper_bound]; lia).
  replace (N / 2 <? 0) with false by lia.
  replace (0 <=? y) with true by lia. replace (y <? N) with true by lia.
  replace (x <? N) with true by lia. rewrite !andb_true_r. cbn [andb].
  replace (Z.max 0 (Z.min N (N / 2))) with (N / 2) by lia.
  destruct (Z.leb_spec (N / 2) x), (Z.ltb_spec x (N / 2)); try lia; reflexivity.
Qed.

Lemma invader_grid (uniform : Z -> Z -> float) (N : Z) (d : float) (sz : Z) :
  0 <= N -> 0 <= sz / 2 <= N / 2 ->
  _initialize_grid uniform N "invader" d sz
  = Ok (tabulate N (fun y x =>
          if (N / 2 - sz / 2 <=? y) && (y <=? N / 2 + sz / 2) &&
             ((N / 2 - sz / 2 <=? x) && (x <=? N / 2 + sz / 2))
          then DEFECT else COOPERATE)).
Proof.
  intros HN Hh. unfold _initialize_grid. cbn [String.eqb Ascii.eqb Bool.eqb].
  rewrite np_full_ok by exact HN. cbn [bind].
  rewrite (assign_slice_ok 0 N) by (apply square_tabulate; exact HN).
  f_equal. apply tabulate_ext. intros y x Hy Hx.
  rewrite cell_tabulate by assumption.
  unfold in_slice, slice_bound.
  assert (0 <= N / 2 <= N) by (split; [apply Z.div_pos | apply Z.div_le_upper_bound]; lia).
  replace (N / 2 - sz / 2 <? 0) with false by lia.
  replace (N / 2 + sz / 2 + 1 <? 0) with false by lia.
  replace (Z.max 0 (Z.min N (N / 2 - sz / 2))) with (N / 2 - sz / 2) by lia.
  replace (y <? Z.max 0 (Z.min N (N / 2 + sz / 2 + 1)))
    with (y <=? N / 2 + sz / 2) by lia.
  replace (x <? Z.max 0 (Z.min N (N / 2 + sz / 2 + 1)))
    with (x <=? N / 2 + sz / 2) by lia.
  reflexivity.
Qed.

Lemma initialize_grid_valid (uniform : Z -> Z -> float) (N : Z)
    (ic : string) (d : float) (sz : Z) (g : ndarray Z) :
  _initialize_grid uniform N ic d sz = Ok g -> square N g /\ binary g.
Proof.
  unfold _initialize_grid.
  destruct (String.eqb ic "random"); [apply random_choice_valid|].
  assert (Hslice : forall (v : Z) y0 y1 x0 x1, strategy v -> 0 <= N ->
            let g' := assign_slice (tabulate N (fun _ _ => v)) y0 y1 x0 x1 DEFECT in
            square N g' /\ binary g').
  { intros v y0 y1 x0 x1 Hv HN. cbv zeta.
    rewrite (assign_slice_ok 0 N) by (apply square_tabulate; exact HN). split.
    - apply square_tabulate. exact HN.
    - apply binary_tabulate. intros y x Hy Hx.
      destruct (_ && _); [right; reflexivity|].
      rewrite cell_tabulate by assumption. exact Hv. }
  destruct (String.eqb ic "split").
  { destruct (Z.lt_ge_cases N 0) as [Hneg|HN].
    - rewrite np_full_neg by exact Hneg. discriminate.
    - rewrite np_full_ok by exact HN. cbn [bind]. intros E. injection E as <-.
      apply (Hslice 0); [left; reflexivity | exact HN]. }
  destruct (String.eqb ic "invader").
  { destruct (Z.lt_ge_cases N 0) as [Hneg|HN].
    - rewrite np_full_neg by exact Hneg. discriminate.
    - rewrite np_full_ok by exact HN. cbn [bind]. intros E. injection E as <-.
      apply (Hslice COOPERATE); [left; reflexivity | exact HN]. }
  destruct (String.eqb ic "clusters"); [|discriminate].
  destruct (Z.lt_ge_cases N 0) as [Hneg|HN].
  - rewrite np_full_neg by exact Hneg. discriminate.
  - rewrite np_full_ok by exact HN. cbn [bind].
    destruct (Z.eq_dec N 0) as [->|Hnz].
    + vm_compute. discriminate.
    + destruct (stamp_clusters_ok N (tabulate N (fun _ _ => DEFECT)))
        as (g' & E & Hg'); [lia | apply square_tabulate; lia | |].
      * apply binary_tabulate. intros. right. reflexivity.
      * rewrite E. intros E'. injection E' as <-.
        exact Hg'.
Qed.

Lemma construct_valid (uniform : Z -> Z -> float) (N : Z) (gt ic : string)
    (d : float) (sz : Z) (self : StrategicAutomaton) :
  construct uniform N gt ic d sz = Ok self ->
  valid self /\ grid_size self = N /\ game_type self = gt.
Proof.
  unfold construct, __init__. cbn [attr_grid_size attr_game_type attr_payoffs
    attr_grid attr_cmap fresh_instance].
  destruct (_get_payoffs gt) as [p|e] eqn:Ep; [|discriminate].
  destruct (_initialize_grid uniform N ic d sz) as [g|e] eqn:Eg; [|discriminate].
  intros E. injection E as <-. cbn.
  destruct (initialize_grid_valid _ _ _ _ _ _ Eg) as [Hsq Hb].
  split; [|split; reflexivity].
  constructor; cbn; try assumption. eapply get_payoffs_valid; eauto.
Qed.

(** ** The winner of a scan *)

Lemma neighborhood_in_range (N y x : Z) (p : Z * Z) :
  1 <= N -> In p (neighborhood N y x) ->
  0 <= fst p < N /\ 0 <= snd p < N.
Proof.
  intros HN Hin. unfold neighborhood in Hin.
  apply in_flat_map in Hin. destruct Hin as (dy & _ & Hin).
  apply in_map_iff in Hin. destruct Hin as (dx & <- & _).
  split; apply wrap_bound; exact HN.
Qed.

Lemma winner_pick (gt : string) (N : Z) (g : ndarray Z) (y x : Z) :
  valid_game_type gt ->
  exists i p,
    nth_error (neighborhood N y x) i = Some p /\
    winner gt N g y x
      = (fitness_sum gt N g (fst p) (snd p), cell 0 g (fst p) (snd p)) /\
    (forall j q, (j < i)%nat -> nth_error (neighborhood N y x) j = Some q ->
       (fitness_sum gt N g (fst q) (snd q)
          <? fitness_sum gt N g (fst p) (snd p))%float = true) /\
    (forall j q, (i < j)%nat -> nth_error (neighborhood N y x) j = Some q ->
       (fitness_sum gt N g (fst p) (snd p)
          <? fitness_sum gt N g (fst q) (snd q))%float = false).
Proof.
  intros Hgt. unfold winner.
  assert (Habove : Forall (fun c => (neg_infinity <? fst c)%float = true)
                     (candidates gt N g y x)).
  { unfold candidates. rewrite Forall_forall. intros c Hc.
    apply in_map_iff in Hc. destruct Hc as ([ny nx] & <- & _).
    apply fitness_above. exact Hgt. }
  assert (Hnth : forall j c, nth_error (candidates gt N g y x) j = Some c ->
            exists q, nth_error (neighborhood N y x) j = Some q /\
                      c = (fitness_sum gt N g (fst q) (snd q),
                           cell 0 g (fst q) (snd q))).
  { intros j c Hj. unfold candidates in Hj. rewrite nth_error_map in Hj.
    destruct (nth_error (neighborhood N y x) j) as [[ny nx]|]; [|discriminate].
    injection Hj as <-. eexists. split; reflexivity. }
  assert (Hnth' : forall j q, nth_error (neighborhood N y x) j = Some q ->
            nth_error (candidates gt N g y x) j
            = Some (fitness_sum gt N g (fst q) (snd q), cell 0 g (fst q) (snd q))).
  { intros j [ny nx] Hj. unfold candidates. rewrite nth_error_map, Hj.
    reflexivity. }
  destruct (scan_first_max _ Habove (neg_infinity, -1))
    as [[_ F] | (i & c & Hi & E & _ & Hbefore & Hafter)].
  - exfalso. remember (candidates gt N g y x) as l eqn:El.
    destruct l as [|c l]; [discriminate El|].
    inversion Habove as [|? ? Hc _]. inversion F as [|? ? Hc' _].
    cbn [fst] in Hc'. congruence.
  - destruct (Hnth i c Hi) as (p & Hp & ->). exists i, p.
    split; [exact Hp|]. split; [exact E|]. split.
    + intros j q Hj Hq. apply (Hbefore j _ Hj (Hnth' j q Hq)).
    + intros j q Hj Hq. apply (Hafter j _ Hj (Hnth' j q Hq)).
Qed.

Lemma winner_strategy (gt : string) (N : Z) (g : ndarray Z) (y x : Z) :
  valid_game_type gt -> 1 <= N -> square N g -> binary g ->
  strategy (snd (winner gt N g y x)).
Proof.
  intros Hgt HN Hsq Hb.
  destruct (winner_pick gt N g y x Hgt) as (i & p & Hp & -> & _).
  apply nth_error_In in Hp.
  destruct (neighborhood_in_range N y x p HN Hp) as [Hy Hx].
  cbn [snd]. apply (binary_cell N); assumption.
Qed.

(** [step] on a valid automaton returns a valid automaton of the same size,
    variant and payoffs. *)
Lemma step_valid (self : StrategicAutomaton) :
  valid self ->
  exists self',
    step self = Ok self' /\ valid self' /\
    grid_size self' = grid_size self /\ game_type self' = game_type self /\
    payoffs self' = payoffs self /\ grid self' = next_grid self.
Proof.
  intros [Hgt Hp Hsq Hb]. eexists. split; [apply step_ok; assumption|].
  cbn [grid_size game_type payoffs grid].
  split; [|repeat split; reflexivity].
  constructor; cbn [grid_size game_type payoffs grid]; try assumption.
  - apply square_tabulate. destruct Hsq as [Hl _]. unfold len in Hl. lia.
  - apply binary_tabulate. intros y x Hy Hx.
    apply winner_strategy; try assumption. lia.
Qed.

Lemma run_valid (k : nat) :
  forall self, valid self ->
    exists self',
      run k self = Ok self' /\ valid self' /\
      grid_size self' = grid_size self /\ game_type self' = game_type self.
Proof.
  induction k as [|k IH]; intros self Hv; simpl.
  - exists self. split; [reflexivity|]. split; [exact Hv|]. split; reflexivity.
  - destruct (step_valid self Hv) as (s1 & E & Hv1 & HN & Hgt & _).
    rewrite E. cbn [bind].
    destruct (IH s1 Hv1) as (s2 & E2 & Hv2 & HN2 & Hgt2).
    exists s2. split; [exact E2|]. split; [exact Hv2|]. split; congruence.
Qed.

Lemma initialize_grid_total (uniform : Z -> Z -> float) (N : Z)
    (ic : string) (d : float) (sz : Z) :
  1 <= N -> ic = "split" \/ ic = "invader" \/ ic = "clusters" ->
  exists g, _initialize_grid uniform N ic d sz = Ok g.
Proof.
  intros HN [-> | [-> | ->]]; unfold _initialize_grid;
    cbn [String.eqb Ascii.eqb Bool.eqb];
    rewrite np_full_ok by lia; cbn [bind].
  - eexists; reflexivity.
  - eexists; reflexivity.
  - destruct (stamp_clusters_ok N (tabulate N (fun _ _ => DEFECT)))
      as (g' & E & _); [lia | apply square_tabulate; lia | |].
    + apply binary_tabulate. intros. right. reflexivity.
    + exists g'. exact E.
Qed.

Lemma construct_total (uniform : Z -> Z -> float) (N : Z) (gt ic : string)
    (d : float) (sz : Z) (g : ndarray Z) :
  valid_game_type gt ->
  _initialize_grid uniform N ic d sz = Ok g ->
  exists self, construct uniform N gt ic d sz = Ok self /\ grid self = g.
Proof.
  intros Hgt Eg. destruct (get_payoffs_total gt Hgt) as (p & Ep).
  unfold construct, __init__. rewrite Ep, Eg. eexists. split; reflexivity.
Qed.

Lemma demo_valid : valid demo.
Proof.
  constructor.
  - left. reflexivity.
  - reflexivity.
  - split; [reflexivity|].
    repeat first [apply Forall_nil | apply Forall_cons]; reflexivity.
  - unfold binary, COOPERATE, DEFECT.
    repeat first [apply Forall_nil | apply Forall_cons]; auto.
Qed.

(** * The claims *)

(** C1. Best-takes-over update.  On a valid automaton one [step] succeeds,
    and every cell [(y,x)] takes the strategy that the pre-step grid holds at
    the winning candidate: the candidate, among the nine positions scanned
    in the order row offset -1, 0, 1 outside and column offset -1, 0, 1
    inside, whose fitness is strictly greater than that of every candidate
    scanned before it and is not exceeded by any scanned after it (the
    first maximum).  Every candidate's fitness is what [_get_fitness]
    returns on the pre-step grid, so no cell reads an updated neighbour. *)
Theorem best_takes_over_update (self : StrategicAutomaton) (y x : Z) :
  valid self ->
  0 <= y < grid_size self -> 0 <= x < grid_size self ->
  let N := grid_size self in
  let F := fun p : Z * Z =>
             fitness_sum (game_type self) N (grid self) (fst p) (snd p) in
  exists self',
    step self = Ok self' /\
    (forall p, In p (neighborhood N y x) ->
       _get_fitness self (fst p) (snd p) (grid self) = Ok (F p)) /\
    exists i p,
      nth_error (neighborhood N y x) i = Some p /\
      cell 0 (grid self') y x = cell 0 (grid self) (fst p) (snd p) /\
      (forall j q, (j < i)%nat -> nth_error (neighborhood N y x) j = Some q ->
         (F q <? F p)%float = true) /\
      (forall j q, (i < j)%nat -> nth_error (neighborhood N y x) j = Some q ->
         (F p <? F q)%float = false).
Proof.
  intros Hv Hy Hx N F.
  destruct (step_valid self Hv) as (self' & E & _ & _ & _ & _ & Hg).
  destruct Hv as [Hgt Hp Hsq Hb].
  exists self'. split; [exact E|]. split.
  - intros p Hp'.
    destruct (neighborhood_in_range N y x p ltac:(lia) Hp') as [H1 H2].
    apply get_fitness_ok; assumption.
  - destruct (winner_pick (game_type self) N (grid self) y x Hgt)
      as (i & p & Hi & Ew & Hbefore & Hafter).
    exists i, p. split; [exact Hi|]. split; [|split; assumption].
    rewrite Hg. unfold next_grid. fold N.
    rewrite cell_tabulate by assumption. rewrite Ew. reflexivity.
Qed.

Lemma best_takes_over_update_witness :
  valid demo /\ 0 <= 1 < grid_size demo /\
  exists self', step demo = Ok self' /\ cell 0 (grid self') 1 1 = DEFECT.
Proof.
  split; [exact demo_valid|]. split; [cbn; lia|].
  destruct (best_takes_over_update demo 1 1 demo_valid
              ltac:(cbn; lia) ltac:(cbn; lia)) as (self' & E & _).
  exists self'. split; [exact E|].
  vm_compute in E. injection E as <-. reflexivity.
Defined.

(** C2. Fitness computation.  [_get_fitness] returns the sum, taken in scan
    order from 0, of the payoff terms selected by (this cell's strategy,
    that neighbour's strategy) over the eight offsets other than (0,0), at
    positions wrapped modulo [N]; for N = 5 the neighbours of (0,0) are
    (4,4), (4,0), (4,1), (0,4), (0,1), (1,4), (1,0), (1,1); and the value
    depends on the grid only through the cell and these eight positions. *)
Theorem fitness_computation (self : StrategicAutomaton) (g : ndarray Z) (y x : Z) :
  valid self -> square (grid_size self) g ->
  0 <= y < grid_size self -> 0 <= x < grid_size self ->
  let N := grid_size self in
  _get_fitness self y x g
  = Ok (fold_left (fun score '(ny, nx) =>
          (score + payoff_term (game_type self)
                     (cell 0%Z g y x) (cell 0%Z g ny nx))%float)
        (neighbors N y x) 0%float) /\
  neighbors N y x
  = map (fun '(dy, dx) => ((y + dy) mod N, (x + dx) mod N))
      [(-1, -1); (-1, 0); (-1, 1); (0, -1); (0, 1); (1, -1); (1, 0); (1, 1)] /\
  neighbors 5 0 0
  = [(4, 4); (4, 0); (4, 1); (0, 4); (0, 1); (1, 4); (1, 0); (1, 1)] /\
  (forall g', square N g' ->
     cell 0 g' y x = cell 0 g y x ->
     (forall p, In p (neighbors N y x) ->
        cell 0 g' (fst p) (snd p) = cell 0 g (fst p) (snd p)) ->
     _get_fitness self y x g' = _get_fitness self y x g).
Proof.
  intros [Hgt Hp _ _] Hsq Hy Hx N.
  split; [apply get_fitness_ok; assumption|].
  split; [reflexivity|]. split; [reflexivity|].
  intros g' Hsq' Hc Hn.
  rewrite !get_fitness_ok by assumption. f_equal.
  unfold fitness_sum. fold N. rewrite Hc.
  generalize 0%float as s. revert Hn.
  induction (neighbors N y x) as [|[ny nx] l IH]; intros Hn s; [reflexivity|].
  cbn [fold_left].
  pose proof (Hn (ny, nx) (or_introl eq_refl)) as K. cbn [fst snd] in K.
  rewrite K. apply IH. intros p Hin. apply Hn. right. exact Hin.
Qed.

Lemma fitness_computation_witness :
  valid demo /\ _get_fitness demo 0 0 (grid demo) = Ok 9%float.
Proof.
  split; [exact demo_valid|].
  destruct (fitness_computation demo (grid demo) 0 0 demo_valid
              ltac:(apply demo_valid)
              ltac:(cbn; lia) ltac:(cbn; lia)) as (E & _).
  rewrite E. vm_compute. reflexivity.
Defined.

(** C3. Closure.  For a side [N >= 1], whatever the variant, the initial
    condition and the parameters, an automaton that construction returns
    runs any number [k] of generations without raising, and afterwards its
    grid is still a square [N] by [N] array whose every cell is COOPERATE or
    DEFECT. *)
Theorem closure_invariant (uniform : Z -> Z -> float) (N : Z) (gt ic : string)
    (d : float) (sz : Z) (self : StrategicAutomaton) (k : nat) :
  1 <= N ->
  construct uniform N gt ic d sz = Ok self ->
  exists self',
    run k self = Ok self' /\
    grid_size self' = N /\ square N (grid self') /\ binary (grid self') /\
    forall y x, 0 <= y < N -> 0 <= x < N ->
      cell 0 (grid self') y x = COOPERATE \/ cell 0 (grid self') y x = DEFECT.
Proof.
  intros HN E.
  destruct (construct_valid _ _ _ _ _ _ _ E) as (Hv & EN & _).
  destruct (run_valid k self Hv) as (self' & Er & Hv' & EN' & _).
  exists self'. split; [exact Er|].
  destruct Hv' as [_ _ Hsq Hb]. rewrite EN', EN in Hsq.
  split; [congruence|]. split; [exact Hsq|]. split; [exact Hb|].
  intros y x Hy Hx. apply (binary_cell N); assumption.
Qed.

Lemma closure_invariant_witness :
  1 <= 4 /\
  exists self self',
    construct uniform_half 4 "stag_hunt" "random" 0.5%float 5 = Ok self /\
    run 3 self = Ok self' /\ binary (grid self').
Proof.
  split; [lia|].
  eexists.
  destruct (closure_invariant uniform_half 4 "stag_hunt" "random" 0.5%float 5
              _ 3%nat ltac:(lia) ltac:(vm_compute; reflexivity))
    as (self' & Er & _ & _ & Hb & _).
  exists self'. split; [vm_compute; reflexivity|]. split; assumption.
Defined.

(** C4. A uniform grid is a fixed point: when every cell of a valid
    automaton holds the same strategy, one [step] succeeds and returns the
    same grid. *)
Theorem uniform_fixed_point (self : StrategicAutomaton) (s : Z) :
  valid self -> 1 <= grid_size self ->
  (forall y x, 0 <= y < grid_size self -> 0 <= x < grid_size self ->
     cell 0 (grid self) y x = s) ->
  exists self', step self = Ok self' /\ grid self' = grid self.
Proof.
  intros Hv HN Hu.
  destruct (step_valid self Hv) as (self' & E & Hv' & EN & _ & _ & Hg).
  exists self'. split; [exact E|].
  destruct Hv as [Hgt Hp Hsq Hb]. destruct Hv' as [_ _ Hsq' _].
  rewrite EN in Hsq'.
  apply (square_ext 0 (grid_size self)); [exact Hsq' | exact Hsq |].
  intros y x Hy Hx. rewrite Hg. unfold next_grid.
  rewrite cell_tabulate by assumption.
  destruct (winner_pick (game_type self) (grid_size self) (grid self) y x Hgt)
    as (i & p & Hi & -> & _).
  apply nth_error_In in Hi.
  destruct (neighborhood_in_range _ y x p HN Hi) as [H1 H2].
  cbn [snd]. rewrite (Hu _ _ H1 H2), (Hu y x Hy Hx). reflexivity.
Qed.

Lemma all_defect_valid : valid all_defect.
Proof.
  constructor.
  - right. left. reflexivity.
  - reflexivity.
  - split; [reflexivity|].
    repeat first [apply Forall_nil | apply Forall_cons]; reflexivity.
  - unfold binary, COOPERATE, DEFECT.
    repeat first [apply Forall_nil | apply Forall_cons]; auto.
Qed.

Lemma all_defect_uniform (y x : Z) :
  0 <= y < 3 -> 0 <= x < 3 -> cell 0 (grid all_defect) y x = DEFECT.
Proof.
  intros Hy Hx.
  assert (Ey : y = 0 \/ y = 1 \/ y = 2) by lia.
  assert (Ex : x = 0 \/ x = 1 \/ x = 2) by lia.
  destruct Ey as [-> | [-> | ->]], Ex as [-> | [-> | ->]]; reflexivity.
Qed.

Lemma uniform_fixed_point_witness :
  valid all_defect /\ 1 <= grid_size all_defect /\
  exists self', step all_defect = Ok self' /\ grid self' = grid all_defect.
Proof.
  split; [exact all_defect_valid|]. split; [cbn; lia|].
  apply (uniform_fixed_point all_defect DEFECT all_defect_valid
           ltac:(cbn; lia) all_defect_uniform).
Defined.

(** C5. Split initialisation.  With a supported variant and [N >= 1], the
    split initial condition constructs an [N] by [N] grid whose cell
    [(y,x)] is COOPERATE for [x < N // 2] and DEFECT otherwise, the same in
    every row; for N = 10 every row is five cooperators followed by five
    defectors. *)
Theorem split_initialization (uniform : Z -> Z -> float) (N : Z) (gt : string)
    (d : float) (sz : Z) :
  1 <= N -> valid_game_type gt ->
  exists self,
    construct uniform N gt "split" d sz = Ok self /\
    grid_size self = N /\ square N (grid self) /\
    (forall y x, 0 <= y < N -> 0 <= x < N ->
       cell 0 (grid self) y x = if x <? N / 2 then COOPERATE else DEFECT) /\
    (forall y y', 0 <= y < N -> 0 <= y' < N ->
       nth (Z.to_nat y) (grid self) [] = nth (Z.to_nat y') (grid self) []) /\
    (N = 10 -> grid self = repeat [0; 0; 0; 0; 0; 1; 1; 1; 1; 1] 10%nat).
Proof.
  intros HN Hgt.
  destruct (construct_total uniform N gt "split" d sz _ Hgt
              (split_grid uniform N d sz ltac:(lia))) as (self & E & Hg).
  destruct (construct_valid _ _ _ _ _ _ _ E) as ([_ _ Hsq _] & EN & _).
  exists self. split; [exact E|]. split; [exact EN|].
  rewrite EN in Hsq. split; [exact Hsq|]. split; [|split].
  - intros y x Hy Hx. rewrite Hg. apply cell_tabulate; assumption.
  - intros y y' Hy Hy'. rewrite Hg. unfold tabulate.
    rewrite !(nth_indep _ [] (map (fun x => if x <? N / 2 then COOPERATE else DEFECT)
                                (range N)))
      by (rewrite length_map, length_range; lia).
    rewrite !(map_nth (fun y0 => map (fun x => if x <? N / 2 then COOPERATE else DEFECT)
                                   (range N)) (range N) 0).
    reflexivity.
  - intros ->. rewrite Hg. reflexivity.
Qed.

Lemma split_initialization_witness :
  1 <= 10 /\ valid_game_type "stag_hunt" /\
  exists self,
    construct uniform_half 10 "stag_hunt" "split" 0.5%float 5 = Ok self /\
    grid self = repeat [0; 0; 0; 0; 0; 1; 1; 1; 1; 1] 10%nat.
Proof.
  split; [lia|]. split; [right; right; reflexivity|].
  destruct (split_initialization uniform_half 10 "stag_hunt" 0.5%float 5
              ltac:(lia) ltac:(right; right; reflexivity))
    as (self & E & _ & _ & _ & _ & H10).
  exists self. split; [exact E | exact (H10 eq_refl)].
Defined.

(** C6, as the specification states it, fails for an even block size: with
    N = 11 and size 4 the defectors fill rows and columns 3 to 7, five
    cells in each dimension, so no 4 by 4 block matches the grid. *)
Lemma invader_even_size_counterexample :
  exists self,
    construct uniform_half 11 "prisoner_clusters" "invader" 0.5%float 4 = Ok self /\
    cell 0 (grid self) 3 3 = DEFECT /\ cell 0 (grid self) 7 7 = DEFECT /\
    ~ (exists a, forall y x, 0 <= y < 11 -> 0 <= x < 11 ->
         (cell 0 (grid self) y x = DEFECT <->
          a <= y < a + 4 /\ a <= x < a + 4)).
Proof.
  eexists. split; [vm_compute; reflexivity|].
  split; [reflexivity|]. split; [reflexivity|].
  intros [a H].
  destruct (H 3 3 ltac:(lia) ltac:(lia)) as [H3 _].
  destruct (H 7 7 ltac:(lia) ltac:(lia)) as [H7 _].
  specialize (H3 eq_refl). specialize (H7 eq_refl). lia.
Qed.

(** C6, amended.  With a supported variant, [N >= 1] and a block that
    starts inside the grid ([0 <= size // 2 <= N // 2]), the invader initial
    condition constructs an [N] by [N] grid whose cell [(y,x)] is DEFECT
    exactly when both [y] and [x] lie within [size // 2] of [N // 2], and
    COOPERATE otherwise: a block centred at (N // 2, N // 2) spanning
    [2 * (size // 2) + 1] cells in each dimension where the grid allows.
    For an odd size that fits the grid this is [size] cells; for N = 11,
    size = 3 the block is rows 4-6 by columns 4-6. *)
Theorem invader_initialization (uniform : Z -> Z -> float) (N : Z) (gt : string)
    (d : float) (sz : Z) :
  1 <= N -> valid_game_type gt -> 0 <= sz / 2 <= N / 2 ->
  exists self,
    construct uniform N gt "invader" d sz = Ok self /\
    grid_size self = N /\ square N (grid self) /\
    (forall y x, 0 <= y < N -> 0 <= x < N ->
       cell 0 (grid self) y x
       = if (Z.abs (y - N / 2) <=? sz / 2) && (Z.abs (x - N / 2) <=? sz / 2)
         then DEFECT else COOPERATE) /\
    (sz mod 2 = 1 -> N / 2 + sz / 2 < N ->
     forall y x, 0 <= y < N -> 0 <= x < N ->
       (cell 0 (grid self) y x = DEFECT <->
        N / 2 - sz / 2 <= y < N / 2 - sz / 2 + sz /\
        N / 2 - sz / 2 <= x < N / 2 - sz / 2 + sz)) /\
    (N = 11 -> sz = 3 ->
     forall y x, 0 <= y < 11 -> 0 <= x < 11 ->
       cell 0 (grid self) y x
       = if (4 <=? y) && (y <=? 6) && ((4 <=? x) && (x <=? 6))
         then DEFECT else COOPERATE).
Proof.
  intros HN Hgt Hh.
  destruct (construct_total uniform N gt "invader" d sz _ Hgt
              (invader_grid uniform N d sz ltac:(lia) Hh)) as (self & E & Hg).
  destruct (construct_valid _ _ _ _ _ _ _ E) as ([_ _ Hsq _] & EN & _).
  exists self. split; [exact E|]. split; [exact EN|].
  rewrite EN in Hsq. split; [exact Hsq|].
  assert (Hcell : forall y x, 0 <= y < N -> 0 <= x < N ->
            cell 0 (grid self) y x
            = if (N / 2 - sz / 2 <=? y) && (y <=? N / 2 + sz / 2) &&
                 ((N / 2 - sz / 2 <=? x) && (x <=? N / 2 + sz / 2))
              then DEFECT else COOPERATE).
  { intros y x Hy Hx. rewrite Hg. apply cell_tabulate; assumption. }
  split; [|split].
  - intros y x Hy Hx. rewrite (Hcell y x Hy Hx).
    replace (Z.abs (y - N / 2) <=? sz / 2)
      with ((N / 2 - sz / 2 <=? y) && (y <=? N / 2 + sz / 2)) by lia.
    replace (Z.abs (x - N / 2) <=? sz / 2)
      with ((N / 2 - sz / 2 <=? x) && (x <=? N / 2 + sz / 2)) by lia.
    reflexivity.
  - intros Hodd Hfit y x Hy Hx. rewrite (Hcell y x Hy Hx).
    pose proof (Z.div_mod sz 2 ltac:(lia)) as Hdm.
    unfold DEFECT, COOPERATE.
    destruct ((N / 2 - sz / 2 <=? y) && (y <=? N / 2 + sz / 2) &&
              ((N / 2 - sz / 2 <=? x) && (x <=? N / 2 + sz / 2))) eqn:Hc;
      split; intros H; try lia; try reflexivity.
  - intros -> -> y x Hy Hx. rewrite (Hcell y x Hy Hx). reflexivity.
Qed.

Lemma invader_initialization_witness :
  1 <= 11 /\ valid_game_type "prisoner_clusters" /\ 0 <= 3 / 2 <= 11 / 2 /\
  exists self,
    construct uniform_half 11 "prisoner_clusters" "invader" 0.5%float 3 = Ok self /\
    cell 0 (grid self) 4 6 = DEFECT /\ cell 0 (grid self) 3 6 = COOPERATE.
Proof.
  split; [lia|]. split; [left; reflexivity|].
  split; [vm_compute; split; discriminate|].
  destruct (invader_initialization uniform_half 11 "prisoner_clusters" 0.5%float 3
              ltac:(lia) ltac:(left; reflexivity)
              ltac:(vm_compute; split; discriminate))
    as (self & E & _ & _ & _ & _ & H11).
  exists self. split; [exact E|].
  split; apply (H11 eq_refl eq_refl); lia.
Defined.

Lemma initialize_grid_unsupported (uniform : Z -> Z -> float) (N : Z)
    (ic : string) (d : float) (sz : Z) :
  ~ supported_condition ic ->
  _initialize_grid uniform N ic d sz = Raise ValueError.
Proof.
  unfold supported_condition, _initialize_grid. intros H.
  destruct (String.eqb_spec ic "random"); [tauto|].
  destruct (String.eqb_spec ic "split"); [tauto|].
  destruct (String.eqb_spec ic "invader"); [tauto|].
  destruct (String.eqb_spec ic "clusters"); [tauto|]. reflexivity.
Qed.

(** C7. Invalid configuration.  When the game-variant name is not one of
    the three supported ones, or the initial-condition name is not one of
    the four supported ones, [__init__] raises ValueError, the instance it
    leaves behind has no [grid] attribute, and the construction returns no
    automaton. *)
Theorem invalid_configuration_rejected (uniform : Z -> Z -> float) (N : Z)
    (gt ic : string) (d : float) (sz : Z) :
  ~ valid_game_type gt \/ ~ supported_condition ic ->
  exists inst,
    __init__ uniform fresh_instance N gt ic d sz = (inst, Raise ValueError) /\
    attr_grid inst = None /\
    construct uniform N gt ic d sz = Raise ValueError.
Proof.
  intros H. unfold construct, __init__.
  cbn [attr_grid_size attr_game_type attr_payoffs attr_grid attr_cmap
       fresh_instance].
  destruct (_get_payoffs gt) as [p|e] eqn:Ep.
  - assert (Hic : ~ supported_condition ic).
    { destruct H as [H|H]; [|exact H]. exfalso. apply H.
      eapply get_payoffs_valid. exact Ep. }
    rewrite (initialize_grid_unsupported uniform N ic d sz Hic).
    eexists. split; [reflexivity|]. split; reflexivity.
  - destruct (get_payoffs_error gt e Ep) as [-> _].
    eexists. split; [reflexivity|]. split; reflexivity.
Qed.

Lemma invalid_configuration_rejected_witness :
  (~ valid_game_type "pd" \/ ~ supported_condition "split") /\
  construct uniform_half 10 "pd" "split" 0.5%float 5 = Raise ValueError.
Proof.
  assert (H : ~ valid_game_type "pd" \/ ~ supported_condition "split").
  { left. intros [H | [H | H]]; discriminate H. }
  split; [exact H|].
  destruct (invalid_configuration_rejected uniform_half 10 "pd" "split"
              0.5%float 5 H) as (inst & _ & _ & E).
  exact E.
Defined.

(** C8, as the specification states it, fails for N = 0: the split initial
    condition then constructs an automaton with an empty grid instead of
    raising. *)
Lemma zero_grid_size_accepted :
  0 <= 0 /\
  construct uniform_half 0 "prisoner_clusters" "split" 0.5%float 5
  = Ok {| grid_size := 0; game_type := "prisoner_clusters";
          payoffs := [("R", 3); ("T", 3.1); ("P", 1); ("S", 0)]%float;
          grid := []; cmap := ["#1f77b4"; "#ff7f0e"] |} /\
  ~ (exists e, construct uniform_half 0 "prisoner_clusters" "split" 0.5%float 5
               = Raise e).
Proof.
  split; [lia|]. split; [reflexivity|]. intros [e E]. discriminate E.
Qed.

Lemma initialize_grid_rejects (uniform : Z -> Z -> float) (N : Z)
    (ic : string) (d : float) (sz : Z) :
  N < 0 \/ (ic = "random" /\ in_unit_interval d = false) ->
  _initialize_grid uniform N ic d sz = Raise ValueError.
Proof.
  intros [HN | [-> Hd]]; unfold _initialize_grid.
  - destruct (String.eqb ic "random").
    { unfold np_random_choice.
      destruct (negb _); [reflexivity|].
      destruct (is_nan _); [reflexivity|].
      destruct (existsb _ _); [reflexivity|].
      destruct (atol <? _)%float; [reflexivity|].
      replace ((N <? 0) || (N <? 0)) with true by lia. reflexivity. }
    destruct (String.eqb ic "split");
      [rewrite np_full_neg by exact HN; reflexivity|].
    destruct (String.eqb ic "invader");
      [rewrite np_full_neg by exact HN; reflexivity|].
    destruct (String.eqb ic "clusters");
      [rewrite np_full_neg by exact HN; reflexivity | reflexivity].
  - cbn [String.eqb Ascii.eqb Bool.eqb]. unfold np_random_choice.
    destruct (negb _); [reflexivity|].
    change (kahan_sum [d; (1 - d)%float]) with (d + (1 - d - 0))%float.
    destruct (density_outside_unit d Hd) as [Hn | Hneg].
    + rewrite Hn. reflexivity.
    + destruct (is_nan _); [reflexivity|].
      cbn [existsb].
      replace ((d <? 0)%float || ((1 - d <? 0)%float || false)) with true;
        [reflexivity|].
      destruct Hneg as [-> | ->]; [reflexivity|].
      destruct (d <? 0)%float; reflexivity.
Qed.

(** C8, amended.  Construction raises ValueError, and clamps nothing,
    whenever the side [N] is negative (the array allocation refuses it)
    and, for the random initial condition, whenever the density lies
    outside [0,1], NaN included (the sampling routine refuses the
    probability vector [density, 1 - density]).  A side of 0 is not
    refused. *)
Theorem invalid_parameter_rejected (uniform : Z -> Z -> float) (N : Z)
    (gt ic : string) (d : float) (sz : Z) :
  N < 0 \/ (ic = "random" /\ in_unit_interval d = false) ->
  construct uniform N gt ic d sz = Raise ValueError.
Proof.
  intros H. unfold construct, __init__.
  cbn [attr_grid_size attr_game_type attr_payoffs attr_grid attr_cmap
       fresh_instance].
  destruct (_get_payoffs gt) as [p|e] eqn:Ep.
  - rewrite (initialize_grid_rejects uniform N ic d sz H). reflexivity.
  - destruct (get_payoffs_error gt e Ep) as [-> _]. reflexivity.
Qed.

Lemma invalid_parameter_rejected_witness :
  in_unit_interval 1.5%float = false /\
  construct uniform_half 10 "stag_hunt" "random" 1.5%float 5 = Raise ValueError /\
  construct uniform_half 10 "stag_hunt" "random" (-0.25)%float 5 = Raise ValueError /\
  construct uniform_half 10 "stag_hunt" "random" nan 5 = Raise ValueError /\
  construct uniform_half (-3) "stag_hunt" "split" 0.5%float 5 = Raise ValueError.
Proof.
  split; [reflexivity|]. split; [|split; [|split]].
  - apply (invalid_parameter_rejected uniform_half 10 "stag_hunt" "random"
             1.5%float 5).
    right. split; reflexivity.
  - apply (invalid_parameter_rejected uniform_half 10 "stag_hunt" "random"
             (-0.25)%float 5).
    right. split; reflexivity.
  - apply (invalid_parameter_rejected uniform_half 10 "stag_hunt" "random"
             nan 5).
    right. split; reflexivity.
  - apply (invalid_parameter_rejected uniform_half (-3) "stag_hunt" "split"
             0.5%float 5).
    left. lia.
Defined.

Lemma same_state_valid (a b : StrategicAutomaton) :
  same_state a b -> valid a -> valid b.
Proof.
  intros (E1 & E2 & E3 & E4) [H1 H2 H3 H4].
  constructor; rewrite <- ?E1, <- ?E2, <- ?E3, <- ?E4; assumption.
Qed.

Lemma step_same_state (a b : StrategicAutomaton) :
  valid a -> same_state a b ->
  exists a' b',
    step a = Ok a' /\ step b = Ok b' /\
    valid a' /\ same_state a' b'.
Proof.
  intros Ha Hs. pose proof (same_state_valid a b Hs Ha) as Hb.
  destruct (step_valid a Ha) as (a' & Ea & Ha' & A1 & A2 & A3 & A4).
  destruct (step_valid b Hb) as (b' & Eb & _ & B1 & B2 & B3 & B4).
  exists a', b'. split; [exact Ea|]. split; [exact Eb|]. split; [exact Ha'|].
  destruct Hs as (E1 & E2 & E3 & E4).
  unfold same_state. rewrite A1, A2, A3, A4, B1, B2, B3, B4.
  unfold next_grid. rewrite E1, E2, E4. repeat split; assumption.
Qed.

Lemma run_same_state (k : nat) :
  forall a b, valid a -> same_state a b ->
    exists a' b', run k a = Ok a' /\ run k b = Ok b' /\ same_state a' b'.
Proof.
  induction k as [|k IH]; intros a b Ha Hs; simpl.
  - exists a, b. split; [reflexivity|]. split; [reflexivity | exact Hs].
  - destruct (step_same_state a b Ha Hs) as (a1 & b1 & Ea & Eb & Ha1 & Hs1).
    rewrite Ea, Eb. cbn [bind]. apply IH; assumption.
Qed.

Lemma initialize_grid_draws (u1 u2 : Z -> Z -> float) (N : Z)
    (ic : string) (d : float) (sz : Z) :
  (forall y x, 0 <= y < N -> 0 <= x < N -> u1 y x = u2 y x) ->
  _initialize_grid u1 N ic d sz = _initialize_grid u2 N ic d sz.
Proof.
  intros H. unfold _initialize_grid.
  destruct (String.eqb ic "random"); [|reflexivity].
  unfold np_random_choice.
  destruct (negb _); [reflexivity|].
  destruct (is_nan _); [reflexivity|].
  destruct (existsb _ _); [reflexivity|].
  destruct (atol <? _)%float; [reflexivity|].
  destruct ((N <? 0) || (N <? 0)); [reflexivity|].
  apply mapM_ext. intros y Hy. apply mapM_ext. intros x Hx.
  rewrite (H y x); [reflexivity | apply In_range; assumption ..].
Qed.

(** C9. Determinism.  Two constructions from the same side, variant,
    initial condition and parameters, with generators that yield the same
    number for every cell of the grid, return the same result; and two
    automata that agree on side, variant, payoffs and grid still agree on
    them after any number [k] of generations (one generation included). *)
Theorem determinism (u1 u2 : Z -> Z -> float) (N : Z) (gt ic : string)
    (d : float) (sz : Z) :
  (forall y x, 0 <= y < N -> 0 <= x < N -> u1 y x = u2 y x) ->
  construct u1 N gt ic d sz = construct u2 N gt ic d sz /\
  (forall a b, construct u1 N gt ic d sz = Ok a ->
               construct u2 N gt ic d sz = Ok b ->
     forall k, exists a' b',
       run k a = Ok a' /\ run k b = Ok b' /\ grid a' = grid b') /\
  (forall a b k, valid a -> same_state a b ->
     exists a' b', run k a = Ok a' /\ run k b = Ok b' /\ grid a' = grid b').
Proof.
  intros H.
  assert (E : construct u1 N gt ic d sz = construct u2 N gt ic d sz).
  { unfold construct, __init__.
    rewrite (initialize_grid_draws u1 u2 N ic d sz H). reflexivity. }
  assert (R : forall a b k, valid a -> same_state a b ->
     exists a' b', run k a = Ok a' /\ run k b = Ok b' /\ grid a' = grid b').
  { intros a b k Ha Hs.
    destruct (run_same_state k a b Ha Hs) as (a' & b' & Ea & Eb & Hs').
    exists a', b'. split; [exact Ea|]. split; [exact Eb|]. apply Hs'. }
  split; [exact E|]. split; [|exact R].
  intros a b Ea Eb k. rewrite E, Eb in Ea. injection Ea as <-.
  destruct (construct_valid _ _ _ _ _ _ _ Eb) as (Hv & _).
  apply R; [exact Hv|]. repeat split.
Qed.

Lemma determinism_witness :
  (forall y x, 0 <= y < 4 -> 0 <= x < 4 -> uniform_half y x = uniform_other y x) /\
  construct uniform_half 4 "stag_hunt" "random" 0.5%float 5
  = construct uniform_other 4 "stag_hunt" "random" 0.5%float 5.
Proof.
  assert (H : forall y x, 0 <= y < 4 -> 0 <= x < 4 ->
                          uniform_half y x = uniform_other y x).
  { intros y x Hy Hx. unfold uniform_other.
    replace ((0 <=? y) && (y <? 4) && (0 <=? x) && (x <? 4)) with true by lia.
    reflexivity. }
  split; [exact H|].
  apply (determinism uniform_half uniform_other 4 "stag_hunt" "random"
           0.5%float 5 H).
Defined.

(** C10. Small grids.  For N = 1 and N = 2 the three deterministic initial
    conditions construct an automaton, and every automaton constructed with
    such a side completes a generation.  For N = 1 all eight neighbour
    positions are the cell itself and its fitness is eight times the payoff
    of its strategy against itself.  For N = 2 the offsets -1 and +1 land
    on the same row or column: the eight positions are the diagonal cell
    four times and the two adjacent cells twice each, and the fitness is the
    sum over these eight positions. *)
Theorem small_grid_aliasing (uniform : Z -> Z -> float) (N : Z) (gt ic : string)
    (d : float) (sz : Z) :
  N = 1 \/ N = 2 -> valid_game_type gt ->
  (ic = "split" \/ ic = "invader" \/ ic = "clusters" ->
   exists self, construct uniform N gt ic d sz = Ok self) /\
  (forall self, construct uniform N gt ic d sz = Ok self ->
     (exists self', step self = Ok self') /\
     (N = 1 ->
      neighbors N 0 0 = repeat (0, 0) 8 /\
      _get_fitness self 0 0 (grid self)
      = Ok (8 * payoff_term gt (cell 0%Z (grid self) 0 0)
                    (cell 0%Z (grid self) 0 0))%float) /\
     (N = 2 -> forall y x, 0 <= y < 2 -> 0 <= x < 2 ->
      neighbors N y x
      = [(1 - y, 1 - x); (1 - y, x); (1 - y, 1 - x); (y, 1 - x);
         (y, 1 - x); (1 - y, 1 - x); (1 - y, x); (1 - y, 1 - x)] /\
      count_occ position_eq_dec (neighbors N y x) (1 - y, 1 - x)
      = 4%nat /\
      _get_fitness self y x (grid self)
      = Ok (fold_left (fun score '(ny, nx) =>
              (score + payoff_term gt (cell 0%Z (grid self) y x)
                         (cell 0%Z (grid self) ny nx))%float)
            (neighbors N y x) 0%float))).
Proof.
  intros HN Hgt. split.
  - intros Hic.
    destruct (initialize_grid_total uniform N ic d sz ltac:(lia) Hic) as (g & Eg).
    destruct (construct_total uniform N gt ic d sz g Hgt Eg) as (self & E & _).
    exists self. exact E.
  - intros self E.
    destruct (construct_valid _ _ _ _ _ _ _ E) as (Hv & EN & Egt).
    split; [|split].
    + destruct (step_valid self Hv) as (self' & Es & _). exists self'. exact Es.
    + intros ->. split; [reflexivity|].
      destruct Hv as [_ Hp Hsq _].
      rewrite get_fitness_ok; try assumption; try lia;
        [|rewrite Egt; exact Hgt].
      f_equal. rewrite EN, Egt. unfold fitness_sum.
      change (neighbors 1 0 0) with (repeat (0, 0) 8).
      cbn [repeat fold_left]. unfold payoff_term, payoff_table.
      destruct Hgt as [-> | [-> | ->]];
        destruct (cell 0 (grid self) 0 0 =? COOPERATE); vm_compute; reflexivity.
    + intros -> y x Hy Hx.
      assert (Ey : y = 0 \/ y = 1) by lia. assert (Ex : x = 0 \/ x = 1) by lia.
      split; [|split].
      * destruct Ey as [-> | ->], Ex as [-> | ->]; reflexivity.
      * destruct Ey as [-> | ->], Ex as [-> | ->]; reflexivity.
      * destruct Hv as [_ Hp Hsq _].
        rewrite get_fitness_ok; try assumption; try lia;
          [|rewrite Egt; exact Hgt].
        rewrite EN, Egt. reflexivity.
Qed.

Lemma small_grid_aliasing_witness :
  (1 = 1 \/ 1 = 2) /\ valid_game_type "hawk_dove_spirals" /\
  exists self self',
    construct uniform_half 1 "hawk_dove_spirals" "clusters" 0.5%float 5 = Ok self /\
    step self = Ok self' /\
    _get_fitness self 0 0 (grid self) = Ok 14%float.
Proof.
  split; [left; reflexivity|]. split; [right; left; reflexivity|].
  destruct (small_grid_aliasing uniform_half 1 "hawk_dove_spirals" "clusters"
              0.5%float 5 ltac:(left; reflexivity)
              ltac:(right; left; reflexivity)) as [Hc Hs].
  destruct (Hc ltac:(right; right; reflexivity)) as (self & E).
  destruct (Hs self E) as ((self' & Es) & H1 & _).
  exists self, self'. split; [exact E|]. split; [exact Es|].
  destruct (H1 eq_refl) as [_ Ef]. rewrite Ef.
  vm_compute in E. injection E as <-. vm_compute. reflexivity.
Defined.

(** * Further properties of the code *)

(** ** Initial conditions *)

Lemma invader_grid_slices (uniform : Z -> Z -> float) (N : Z) (d : float) (sz : Z) :
  0 <= N ->
  _initialize_grid uniform N "invader" d sz
  = Ok (tabulate N (fun y x =>
          if in_slice N (Some (N / 2 - sz / 2)) (Some (N / 2 + sz / 2 + 1)) y &&
             in_slice N (Some (N / 2 - sz / 2)) (Some (N / 2 + sz / 2 + 1)) x
          then DEFECT else COOPERATE)).
Proof.
  intros HN. unfold _initialize_grid. cbn [String.eqb Ascii.eqb Bool.eqb].
  rewrite np_full_ok by exact HN. cbn [bind].
  rewrite (assign_slice_ok 0 N) by (apply square_tabulate; exact HN).
  f_equal. apply tabulate_ext. intros y x Hy Hx.
  rewrite cell_tabulate by assumption. reflexivity.
Qed.

Lemma half_bounds (N : Z) : 0 <= N -> 0 <= N / 2 /\ 2 * (N / 2) <= N <= 2 * (N / 2) + 1.
Proof.
  intros HN. pose proof (Z.div_mod N 2 ltac:(lia)).
  pose proof (Z.mod_pos_bound N 2 ltac:(lia)).
  split; [apply Z.div_pos; lia | lia].
Qed.

(** X1. A negative invader size stamps nothing: construction succeeds and
    the whole grid cooperates. *)
Theorem invader_negative_size (uniform : Z -> Z -> float) (N : Z) (gt : string)
    (d : float) (sz : Z) :
  1 <= N -> valid_game_type gt -> sz < 0 ->
  exists self,
    construct uniform N gt "invader" d sz = Ok self /\
    forall y x, 0 <= y < N -> 0 <= x < N -> cell 0 (grid self) y x = COOPERATE.
Proof.
  intros HN Hgt Hsz.
  destruct (construct_total uniform N gt "invader" d sz _ Hgt
              (invader_grid_slices uniform N d sz ltac:(lia))) as (self & E & Hg).
  exists self. split; [exact E|]. intros y x Hy Hx.
  rewrite Hg, cell_tabulate by assumption.
  destruct (half_bounds N ltac:(lia)) as [Hc1 Hc2].
  assert (Hh : sz / 2 <= -1).
  { pose proof (Z.div_mod sz 2 ltac:(lia)).
    pose proof (Z.mod_pos_bound sz 2 ltac:(lia)). lia. }
  replace (in_slice N (Some (N / 2 - sz / 2)) (Some (N / 2 + sz / 2 + 1)) y)
    with false; [reflexivity|].
  unfold in_slice, slice_bound.
  destruct (N / 2 - sz / 2 <? 0) eqn:E1, (N / 2 + sz / 2 + 1 <? 0) eqn:E2; lia.
Qed.

Lemma invader_negative_size_witness :
  1 <= 5 /\ -3 < 0 /\
  exists self,
    construct uniform_half 5 "stag_hunt" "invader" 0.5%float (-3) = Ok self /\
    cell 0 (grid self) 2 2 = COOPERATE.
Proof.
  split; [lia|]. split; [lia|].
  destruct (invader_negative_size uniform_half 5 "stag_hunt" 0.5%float (-3)
              ltac:(lia) ltac:(right; right; reflexivity) ltac:(lia))
    as (self & E & H).
  exists self. split; [exact E | apply H; lia].
Defined.

(** X2. An invader block wider than the grid is not clipped around the
    centre: when [size // 2 > N // 2] the start of the slice is negative and
    counts from the end, so the defectors are exactly the cells whose row
    and column are both at least [N + N // 2 - size // 2], a square in the
    bottom-right corner (the whole grid once that bound is 0 or less). *)
Theorem invader_oversized_block (uniform : Z -> Z -> float) (N : Z) (gt : string)
    (d : float) (sz : Z) :
  1 <= N -> valid_game_type gt -> N / 2 < sz / 2 ->
  exists self,
    construct uniform N gt "invader" d sz = Ok self /\
    forall y x, 0 <= y < N -> 0 <= x < N ->
      cell 0 (grid self) y x
      = if (N + N / 2 - sz / 2 <=? y) && (N + N / 2 - sz / 2 <=? x)
        then DEFECT else COOPERATE.
Proof.
  intros HN Hgt Hh.
  destruct (construct_total uniform N gt "invader" d sz _ Hgt
              (invader_grid_slices uniform N d sz ltac:(lia))) as (self & E & Hg).
  exists self. split; [exact E|]. intros y x Hy Hx.
  rewrite Hg, cell_tabulate by assumption.
  destruct (half_bounds N ltac:(lia)) as [Hc1 Hc2].
  assert (Hs : forall i, 0 <= i < N ->
            in_slice N (Some (N / 2 - sz / 2)) (Some (N / 2 + sz / 2 + 1)) i
            = (N + N / 2 - sz / 2 <=? i)).
  { intros i Hi. unfold in_slice, slice_bound.
    destruct (N / 2 - sz / 2 <? 0) eqn:E1, (N / 2 + sz / 2 + 1 <? 0) eqn:E2; lia. }
  rewrite (Hs y Hy), (Hs x Hx). reflexivity.
Qed.

Lemma invader_oversized_block_witness :
  1 <= 4 /\ 4 / 2 < 7 / 2 /\
  exists self,
    construct uniform_half 4 "stag_hunt" "invader" 0.5%float 7 = Ok self /\
    grid self = [[0; 0; 0; 0]; [0; 0; 0; 0]; [0; 0; 0; 0]; [0; 0; 0; 1]].
Proof.
  split; [lia|]. split; [reflexivity|].
  destruct (invader_oversized_block uniform_half 4 "stag_hunt" 0.5%float 7
              ltac:(lia) ltac:(right; right; reflexivity) ltac:(reflexivity))
    as (self & E & _).
  exists self. split; [exact E|].
  vm_compute in E. injection E as <-. reflexivity.
Defined.

Lemma stamps_skip (N : Z) : stamps N (fun g => Ok g) (fun _ _ => False).
Proof.
  intros g Hsq Hb. exists g. split; [reflexivity|]. split; [exact Hsq|].
  split; [exact Hb|]. intros y x _ _. tauto.
Qed.

Lemma stamps_setitem (N a b : Z) :
  1 <= N ->
  stamps N (fun g => y <- py_mod a N ;; x <- py_mod b N ;; setitem g y x COOPERATE)
    (fun y x => y = a mod N /\ x = b mod N).
Proof.
  intros HN g Hsq Hb. unfold py_mod. replace (N =? 0) with false by lia.
  cbn [bind].
  rewrite (setitem_square N g _ _ COOPERATE Hsq (wrap_bound N a HN) (wrap_bound N b HN)).
  eexists. split; [reflexivity|]. split; [|split].
  - apply square_write; [exact Hsq | apply wrap_bound; exact HN ..].
  - apply binary_write; [exact Hb | left; reflexivity].
  - intros y x Hy Hx.
    rewrite (cell_write 0 N g _ _ y x COOPERATE Hsq
               (wrap_bound N a HN) (wrap_bound N b HN)) by lia.
    destruct (Z.eqb_spec y (a mod N)), (Z.eqb_spec x (b mod N)); cbn [andb];
      tauto.
Qed.

Lemma stamps_weaken (N : Z) (prog : ndarray Z -> result (ndarray Z))
    (S S' : Z -> Z -> Prop) :
  (forall y x, S y x <-> S' y x) -> stamps N prog S -> stamps N prog S'.
Proof.
  intros HS H g Hsq Hb. destruct (H g Hsq Hb) as (g' & E & Hsq' & Hb' & Hc).
  exists g'. repeat (split; [assumption|]).
  intros y x Hy Hx. rewrite (Hc y x Hy Hx), HS. reflexivity.
Qed.

Lemma stamps_foldM {A : Type} (N : Z)
    (body : ndarray Z -> A -> result (ndarray Z)) (S : A -> Z -> Z -> Prop)
    (l : list A) :
  (forall a, In a l -> stamps N (fun g => body g a) (S a)) ->
  stamps N (fun g => foldM body l g) (fun y x => exists a, In a l /\ S a y x).
Proof.
  induction l as [|a l IH]; intros H g Hsq Hb; cbn [foldM].
  - exists g. split; [reflexivity|]. split; [exact Hsq|]. split; [exact Hb|].
    intros y x _ _. split; [tauto|]. intros [K | (a & [] & _)]. exact K.
  - destruct (H a (or_introl eq_refl) g Hsq Hb) as (g1 & E1 & Hsq1 & Hb1 & Hc1).
    rewrite E1. cbn [bind].
    destruct (IH (fun a0 Hin => H a0 (or_intror Hin)) g1 Hsq1 Hb1)
      as (g2 & E2 & Hsq2 & Hb2 & Hc2).
    exists g2. split; [exact E2|]. split; [exact Hsq2|]. split; [exact Hb2|].
    intros y x Hy Hx. rewrite (Hc2 y x Hy Hx), (Hc1 y x Hy Hx). split.
    + intros [[K | K] | (a0 & Hin & K)]; [left; exact K | right .. ].
      * exists a. split; [left; reflexivity | exact K].
      * exists a0. split; [right; exact Hin | exact K].
    + intros [K | (a0 & [<- | Hin] & K)].
      * left. left. exact K.
      * left. right. exact K.
      * right. exists a0. split; assumption.
Qed.

Lemma stamp_clusters_stamps (N : Z) :
  1 <= N -> stamps N (stamp_clusters N) (stamped N).
Proof.
  intros HN. unfold stamp_clusters.
  apply (stamps_weaken N _
    (fun y x => exists c, In c centers /\
       exists dy, In dy (range2 (-8) 9) /\
       exists dx, In dx (range2 (-8) 9) /\
         dy * dy + dx * dx <= 64 /\
         y = (fst c + dy) mod N /\ x = (snd c + dx) mod N)).
  - intros y x. unfold stamped. split.
    + intros ([cy cx] & Hc & dy & Hdy & dx & Hdx & Hr & Ey & Ex).
      apply In_range2 in Hdy. apply In_range2 in Hdx.
      exists cy, cx, dy, dx. cbn [fst snd] in *. repeat split; try assumption; lia.
    + intros (cy & cx & dy & dx & Hc & Hdy & Hdx & Hr & Ey & Ex).
      exists (cy, cx). split; [exact Hc|].
      exists dy. split; [apply In_range2; lia|].
      exists dx. split; [apply In_range2; lia|]. cbn [fst snd]. tauto.
  - apply (stamps_foldM N _ (fun c y x =>
       exists dy, In dy (range2 (-8) 9) /\
       exists dx, In dx (range2 (-8) 9) /\
         dy * dy + dx * dx <= 64 /\
         y = (fst c + dy) mod N /\ x = (snd c + dx) mod N)).
    intros [cy cx] _. cbn [fst snd].
    apply (stamps_foldM N _ (fun dy y x =>
       exists dx, In dx (range2 (-8) 9) /\
         dy * dy + dx * dx <= 64 /\
         y = (cy + dy) mod N /\ x = (cx + dx) mod N)).
    intros dy _.
    apply (stamps_foldM N _ (fun dx y x =>
         dy * dy + dx * dx <= 64 /\
         y = (cy + dy) mod N /\ x = (cx + dx) mod N)).
    intros dx _.
    destruct (Z.leb_spec (dy * dy + dx * dx) 64) as [Hle | Hgt].
    + apply (stamps_weaken N _ (fun y x => y = (cy + dy) mod N /\ x = (cx + dx) mod N));
        [intros; tauto | apply stamps_setitem; exact HN].
    + apply (stamps_weaken N _ (fun _ _ => False));
        [intros; lia | apply stamps_skip].
Qed.

(** X3. The clusters initial condition, on a grid with at least one cell:
    construction succeeds, and a cell cooperates exactly when it lies, after
    wrapping modulo [N], within squared distance 64 of one of the centres
    (30,30), (120,40), (70,100), (40,120); every other cell defects.  On a
    grid smaller than the coordinates the disks wrap around and overlap. *)
Theorem clusters_initialization (uniform : Z -> Z -> float) (N : Z) (gt : string)
    (d : float) (sz : Z) :
  1 <= N -> valid_game_type gt ->
  exists self,
    construct uniform N gt "clusters" d sz = Ok self /\
    grid_size self = N /\
    forall y x, 0 <= y < N -> 0 <= x < N ->
      (cell 0 (grid self) y x = COOPERATE <-> stamped N y x) /\
      (cell 0 (grid self) y x = DEFECT <-> ~ stamped N y x).
Proof.
  intros HN Hgt.
  destruct (stamp_clusters_stamps N HN (tabulate N (fun _ _ => DEFECT)))
    as (g & Eg & Hsq & Hb & Hc).
  { apply square_tabulate. lia. }
  { apply binary_tabulate. intros. right. reflexivity. }
  assert (Ei : _initialize_grid uniform N "clusters" d sz = Ok g).
  { unfold _initialize_grid. cbn [String.eqb Ascii.eqb Bool.eqb].
    rewrite np_full_ok by lia. cbn [bind]. exact Eg. }
  destruct (construct_total uniform N gt "clusters" d sz g Hgt Ei)
    as (self & E & Hg).
  destruct (construct_valid _ _ _ _ _ _ _ E) as (_ & EN & _).
  exists self. split; [exact E|]. split; [exact EN|].
  intros y x Hy Hx. rewrite Hg.
  assert (Hcoop : cell 0 g y x = COOPERATE <-> stamped N y x).
  { rewrite (Hc y x Hy Hx). rewrite cell_tabulate by assumption.
    unfold DEFECT, COOPERATE. split; [intros [K | K]; [lia | exact K] | tauto]. }
  split; [exact Hcoop|].
  destruct (binary_cell N g y x Hsq Hb Hy Hx) as [K | K]; rewrite K;
    rewrite K in Hcoop; unfold COOPERATE, DEFECT in *; split; intros H.
  - lia.
  - exfalso. apply H. apply Hcoop. reflexivity.
  - intros Hs. apply Hcoop in Hs. lia.
  - reflexivity.
Qed.

Lemma clusters_initialization_witness :
  1 <= 7 /\ valid_game_type "stag_hunt" /\
  exists self,
    construct uniform_half 7 "stag_hunt" "clusters" 0.5%float 5 = Ok self /\
    (cell 0 (grid self) 2 2 = COOPERATE <-> stamped 7 2 2).
Proof.
  split; [lia|]. split; [right; right; reflexivity|].
  destruct (clusters_initialization uniform_half 7 "stag_hunt" 0.5%float 5
              ltac:(lia) ltac:(right; right; reflexivity)) as (self & E & _ & H).
  exists self. split; [exact E|]. apply (H 2 2); lia.
Defined.

(** X4. A side of 0: the split and the invader initial conditions construct
    an automaton with an empty grid, which any number of generations leaves
    empty; the clusters initial condition raises ZeroDivisionError, from the
    wrap-around of its first stamped cell. *)
Theorem zero_side (uniform : Z -> Z -> float) (gt : string) (d : float) (sz : Z) :
  valid_game_type gt ->
  (forall ic, ic = "split" \/ ic = "invader" ->
     exists self,
       construct uniform 0 gt ic d sz = Ok self /\ grid self = [] /\
       forall k, exists self', run k self = Ok self' /\ grid self' = []) /\
  construct uniform 0 gt "clusters" d sz = Raise ZeroDivisionError.
Proof.
  intros Hgt. destruct (get_payoffs_total gt Hgt) as (p & Ep). split.
  - intros ic Hic.
    assert (Ei : _initialize_grid uniform 0 ic d sz = Ok []).
    { destruct Hic as [-> | ->]; reflexivity. }
    destruct (construct_total uniform 0 gt ic d sz [] Hgt Ei) as (self & E & Hg).
    destruct (construct_valid _ _ _ _ _ _ _ E) as (Hv & EN & _).
    exists self. split; [exact E|]. split; [exact Hg|]. intros k.
    destruct (run_valid k self Hv) as (self' & Er & [_ _ [Hl _] _] & EN' & _).
    exists self'. split; [exact Er|].
    rewrite EN', EN in Hl. unfold len in Hl.
    destruct (grid self'); [reflexivity | cbn in Hl; lia].
  - unfold construct, __init__. rewrite Ep. reflexivity.
Qed.

Lemma zero_side_witness :
  valid_game_type "stag_hunt" /\
  construct uniform_half 0 "stag_hunt" "clusters" 0.5%float 5
  = Raise ZeroDivisionError.
Proof.
  split; [right; right; reflexivity|].
  apply (zero_side uniform_half "stag_hunt" 0.5%float 5).
  right; right; reflexivity.
Defined.

(** ** Fitness and the update *)

Lemma fitness_by_count (gt : string) (N : Z) (g : ndarray Z) (y x : Z) :
  valid_game_type gt ->
  gt <> "prisoner_clusters" \/ cell 0 g y x = COOPERATE ->
  fitness_sum gt N g y x
  = sum_by_count gt (cell 0 g y x =? COOPERATE) (cooperating_neighbors N g y x).
Proof.
  intros Hgt Hex.
  assert (Hex' : gt <> "prisoner_clusters" \/ (cell 0 g y x =? COOPERATE) = true).
  { destruct Hex as [H | H]; [left; exact H | right; rewrite H; reflexivity]. }
  clear Hex. revert Hex'.
  unfold fitness_sum, cooperating_neighbors, neighbors, offsets, payoff_term.
  cbn [flat_map map app Z.eqb andb fold_left filter].
  generalize (cell 0 g y x =? COOPERATE) as me.
  generalize (cell 0 g ((y + -1) mod N) ((x + -1) mod N) =? COOPERATE) as b1.
  generalize (cell 0 g ((y + -1) mod N) ((x + 0) mod N) =? COOPERATE) as b2.
  generalize (cell 0 g ((y + -1) mod N) ((x + 1) mod N) =? COOPERATE) as b3.
  generalize (cell 0 g ((y + 0) mod N) ((x + -1) mod N) =? COOPERATE) as b4.
  generalize (cell 0 g ((y + 0) mod N) ((x + 1) mod N) =? COOPERATE) as b5.
  generalize (cell 0 g ((y + 1) mod N) ((x + -1) mod N) =? COOPERATE) as b6.
  generalize (cell 0 g ((y + 1) mod N) ((x + 0) mod N) =? COOPERATE) as b7.
  generalize (cell 0 g ((y + 1) mod N) ((x + 1) mod N) =? COOPERATE) as b8.
  intros b8 b7 b6 b5 b4 b3 b2 b1 me Hex.
  destruct Hgt as [-> | [-> | ->]]; destruct me;
    try (destruct Hex as [Hex | Hex]; [congruence | discriminate Hex]);
    clear Hex; destruct b1, b2, b3, b4, b5, b6, b7, b8; vm_compute; reflexivity.
Qed.

(** X5. Outside the defector's row of the prisoner's dilemma, fitness counts
    neighbours and ignores where they sit: two cells of valid grids with
    the same own strategy and the same number of cooperating neighbours get
    the same fitness, whatever the variant for a cooperator, and in
    hawk-dove and stag hunt for a defector as well. *)
Theorem fitness_counts_cooperators (self : StrategicAutomaton)
    (g g' : ndarray Z) (y x y' x' : Z) :
  valid self ->
  square (grid_size self) g -> square (grid_size self) g' ->
  0 <= y < grid_size self -> 0 <= x < grid_size self ->
  0 <= y' < grid_size self -> 0 <= x' < grid_size self ->
  game_type self <> "prisoner_clusters" \/ cell 0 g y x = COOPERATE ->
  (cell 0 g y x =? COOPERATE) = (cell 0 g' y' x' =? COOPERATE) ->
  cooperating_neighbors (grid_size self) g y x
  = cooperating_neighbors (grid_size self) g' y' x' ->
  _get_fitness self y x g = _get_fitness self y' x' g'.
Proof.
  intros [Hgt Hp _ _] Hsq Hsq' Hy Hx Hy' Hx' Hex Hme Hk.
  rewrite !get_fitness_ok by assumption. f_equal.
  rewrite (fitness_by_count _ _ g y x Hgt Hex).
  rewrite (fitness_by_count _ _ g' y' x' Hgt).
  - rewrite Hme, Hk. reflexivity.
  - destruct Hex as [H | H]; [left; exact H | right].
    rewrite H in Hme. cbn in Hme. symmetry in Hme.
    apply Z.eqb_eq in Hme. exact Hme.
Qed.

Lemma fitness_counts_cooperators_witness :
  valid all_defect /\
  cooperating_neighbors 3 three_first 1 1 = cooperating_neighbors 3 three_later 1 1 /\
  _get_fitness all_defect 1 1 three_first = _get_fitness all_defect 1 1 three_later.
Proof.
  split; [exact all_defect_valid|]. split; [reflexivity|].
  apply (fitness_counts_cooperators all_defect three_first three_later 1 1 1 1
           all_defect_valid);
    try (cbn; lia); try reflexivity;
    try (split; [reflexivity |
                 repeat first [apply Forall_nil | apply Forall_cons]; reflexivity]).
  left. discriminate.
Defined.

(** X6. For a defector in the prisoner's dilemma the positions do matter:
    the payoff 3.1 is not a binary64 number, the sum is rounded at every
    addition, and two neighbourhoods with three cooperating neighbours each
    give fitness values one unit in the last place apart, which the strict
    comparison of the update tells apart. *)
Theorem defector_fitness_order_dependent :
  cell 0 three_first 1 1 = DEFECT /\ cell 0 three_later 1 1 = DEFECT /\
  cooperating_neighbors 3 three_first 1 1 = 3%nat /\
  cooperating_neighbors 3 three_later 1 1 = 3%nat /\
  exists f f',
    _get_fitness demo 1 1 three_first = Ok f /\
    _get_fitness demo 1 1 three_later = Ok f' /\
    (f' <? f)%float = true.
Proof.
  repeat (split; [reflexivity|]).
  eexists. eexists. split; [vm_compute; reflexivity|].
  split; [vm_compute; reflexivity|]. reflexivity.
Qed.

(** X7. A cell whose whole neighbourhood (the nine scanned positions) holds
    one strategy keeps that strategy through a generation, whatever the
    rest of the grid holds. *)
Theorem monochrome_neighbourhood_keeps (self : StrategicAutomaton) (y x s : Z) :
  valid self ->
  0 <= y < grid_size self -> 0 <= x < grid_size self ->
  (forall p, In p (neighborhood (grid_size self) y x) ->
     cell 0 (grid self) (fst p) (snd p) = s) ->
  exists self', step self = Ok self' /\ cell 0 (grid self') y x = s.
Proof.
  intros Hv Hy Hx Hs.
  destruct (step_valid self Hv) as (self' & E & _ & _ & _ & _ & Hg).
  exists self'. split; [exact E|].
  rewrite Hg. unfold next_grid. rewrite cell_tabulate by assumption.
  destruct Hv as [Hgt _ _ _].
  destruct (winner_pick (game_type self) (grid_size self) (grid self) y x Hgt)
    as (i & p & Hi & -> & _).
  apply nth_error_In in Hi. cbn [snd]. apply Hs. exact Hi.
Qed.

Lemma monochrome_neighbourhood_keeps_witness :
  valid all_defect /\
  exists self', step all_defect = Ok self' /\ cell 0 (grid self') 1 1 = DEFECT.
Proof.
  split; [exact all_defect_valid|].
  apply (monochrome_neighbourhood_keeps all_defect 1 1 DEFECT all_defect_valid);
    try (cbn; lia).
  intros p Hp. apply all_defect_uniform;
    apply (neighborhood_in_range 3 1 1 p ltac:(lia) Hp).
Defined.

(** ** Translation on the torus *)

Lemma neighbors_offsets (N y x : Z) :
  neighbors N y x
  = map (fun '(dy, dx) => ((y + dy) mod N, (x + dx) mod N)) neighbor_offsets.
Proof. reflexivity. Qed.

Lemma neighborhood_offsets (N y x : Z) :
  neighborhood N y x
  = map (fun '(dy, dx) => ((y + dy) mod N, (x + dx) mod N)) scan_offsets.
Proof. reflexivity. Qed.

Lemma fold_left_map {A B S : Type} (f : S -> B -> S) (h : A -> B) (l : list A) :
  forall s, fold_left f (map h l) s = fold_left (fun s a => f s (h a)) l s.
Proof. induction l as [|a l IH]; intros s; cbn; [reflexivity | apply IH]. Qed.

Lemma fold_left_ext_in {A S : Type} (f f' : S -> A -> S) (l : list A) :
  (forall s a, In a l -> f s a = f' s a) ->
  forall s, fold_left f l s = fold_left f' l s.
Proof.
  induction l as [|a l IH]; intros H s; cbn; [reflexivity|].
  rewrite (H s a (or_introl eq_refl)). apply IH.
  intros s0 a0 Hin. apply H. right. exact Hin.
Qed.

Lemma wrap_roll (N i d a : Z) :
  1 <= N -> ((i + d) mod N + a) mod N = ((i + a) mod N + d) mod N.
Proof.
  intros HN. rewrite !Z.add_mod_idemp_l by lia. f_equal. lia.
Qed.

Lemma cell_roll (a b N : Z) (g : ndarray Z) (y x : Z) :
  0 <= y < N -> 0 <= x < N ->
  cell 0 (roll a b N g) y x = cell 0 g ((y + a) mod N) ((x + b) mod N).
Proof.
  intros Hy Hx. unfold roll. rewrite cell_tabulate by assumption. reflexivity.
Qed.

Lemma fitness_roll (gt : string) (a b N : Z) (g : ndarray Z) (y x : Z) :
  0 <= y < N -> 0 <= x < N ->
  fitness_sum gt N (roll a b N g) y x
  = fitness_sum gt N g ((y + a) mod N) ((x + b) mod N).
Proof.
  intros Hy Hx. assert (HN : 1 <= N) by lia.
  unfold fitness_sum. rewrite !neighbors_offsets, !fold_left_map.
  apply fold_left_ext_in. intros s [dy dx] _.
  rewrite !cell_roll by (first [assumption | apply wrap_bound; exact HN]).
  rewrite (wrap_roll N y dy a HN), (wrap_roll N x dx b HN). reflexivity.
Qed.

Lemma winner_roll (gt : string) (a b N : Z) (g : ndarray Z) (y x : Z) :
  0 <= y < N -> 0 <= x < N ->
  winner gt N (roll a b N g) y x
  = winner gt N g ((y + a) mod N) ((x + b) mod N).
Proof.
  intros Hy Hx. assert (HN : 1 <= N) by lia.
  unfold winner, candidates. rewrite !neighborhood_offsets, !map_map.
  f_equal. apply map_ext. intros [dy dx].
  rewrite fitness_roll by (apply wrap_bound; exact HN).
  rewrite cell_roll by (apply wrap_bound; exact HN).
  rewrite (wrap_roll N y dy a HN), (wrap_roll N x dx b HN). reflexivity.
Qed.

(** X8. A generation commutes with translation on the torus: stepping the
    grid translated by [(a,b)] gives the translate of the stepped grid, so
    no row or column is an edge. *)
Theorem step_commutes_with_translation (self : StrategicAutomaton) (a b : Z) :
  valid self -> 1 <= grid_size self ->
  exists s1 s2,
    step self = Ok s1 /\
    step (with_grid self (roll a b (grid_size self) (grid self))) = Ok s2 /\
    grid s2 = roll a b (grid_size self) (grid s1).
Proof.
  intros Hv HN. set (N := grid_size self) in *.
  assert (Hv' : valid (with_grid self (roll a b N (grid self)))).
  { destruct Hv as [Hgt Hp Hsq Hb]. constructor; cbn; try assumption.
    - apply square_tabulate. lia.
    - apply binary_tabulate. intros y x Hy Hx.
      apply (binary_cell N); try assumption; apply wrap_bound; exact HN. }
  destruct (step_valid self Hv) as (s1 & E1 & _ & _ & _ & _ & G1).
  destruct (step_valid _ Hv') as (s2 & E2 & _ & _ & _ & _ & G2).
  exists s1, s2. split; [exact E1|]. split; [exact E2|].
  rewrite G1, G2. unfold next_grid, with_grid. cbn [grid_size game_type grid].
  fold N. unfold roll at 2. apply tabulate_ext. intros y x Hy Hx.
  rewrite winner_roll by assumption.
  rewrite cell_tabulate by (apply wrap_bound; exact HN). reflexivity.
Qed.

Lemma step_commutes_with_translation_witness :
  valid demo /\ 1 <= grid_size demo /\
  exists s1 s2,
    step demo = Ok s1 /\
    step (with_grid demo (roll 1 2 3 (grid demo))) = Ok s2 /\
    grid s2 = roll 1 2 3 (grid s1).
Proof.
  split; [exact demo_valid|]. split; [cbn; lia|].
  apply (step_commutes_with_translation demo 1 2 demo_valid). cbn. lia.
Defined.

(** ** Random initial condition *)

Lemma mapM_nth {A B : Type} (f : A -> result B) (l : list A) :
  forall r, mapM f l = Ok r ->
    forall k a, nth_error l k = Some a ->
      exists b, nth_error r k = Some b /\ f a = Ok b.
Proof.
  induction l as [|a0 l IH]; cbn [mapM]; intros r E k a Hk.
  - destruct k; discriminate Hk.
  - destruct (f a0) as [b0|e] eqn:Ea; cbn [bind] in E; [|discriminate].
    destruct (mapM f l) as [bs|e] eqn:El; cbn [bind] in E; [|discriminate].
    injection E as <-. destruct k as [|k]; cbn in Hk |- *.
    + injection Hk as <-. exists b0. split; [reflexivity | exact Ea].
    + apply (IH bs eq_refl k a Hk).
Qed.

Lemma nth_error_range (N k : Z) :
  0 <= k < N -> nth_error (range N) (Z.to_nat k) = Some k.
Proof.
  intros Hk. rewrite (nth_error_nth' _ 0) by (rewrite length_range; lia).
  rewrite nth_range by exact Hk. reflexivity.
Qed.

Lemma construct_grid (uniform : Z -> Z -> float) (N : Z) (gt ic : string)
    (d : float) (sz : Z) (self : StrategicAutomaton) :
  construct uniform N gt ic d sz = Ok self ->
  _initialize_grid uniform N ic d sz = Ok (grid self).
Proof.
  unfold construct, __init__. cbn [attr_grid_size attr_game_type attr_payoffs
    attr_grid attr_cmap fresh_instance].
  destruct (_get_payoffs gt) as [p|e]; [|discriminate].
  destruct (_initialize_grid uniform N ic d sz) as [g|e]; [|discriminate].
  intros E. injection E as <-. reflexivity.
Qed.

(** X9. The random initial condition, when construction succeeds: neither
    the density nor one minus the density is negative, and each cell is
    decided by its own draw alone, COOPERATE when the draw is below the
    normalised density [d / (d + (1 - d))] and DEFECT otherwise. *)
Theorem random_initialization (uniform : Z -> Z -> float) (N : Z) (gt : string)
    (d : float) (sz : Z) (self : StrategicAutomaton) :
  construct uniform N gt "random" d sz = Ok self ->
  (d <? 0)%float = false /\ (1 - d <? 0)%float = false /\
  forall y x, 0 <= y < N -> 0 <= x < N ->
    cell 0 (grid self) y x
    = if (d / (d + (1 - d)) <=? uniform y x)%float then DEFECT else COOPERATE.
Proof.
  intros E. apply construct_grid in E. revert E.
  unfold _initialize_grid. cbn [String.eqb Ascii.eqb Bool.eqb].
  unfold np_random_choice.
  destruct (negb _); [discriminate|].
  destruct (is_nan _); [discriminate|].
  cbn [existsb].
  destruct (d <? 0)%float; [discriminate|].
  destruct (1 - d <? 0)%float; [discriminate|].
  cbn [orb].
  destruct (atol <? _)%float; [discriminate|].
  destruct ((N <? 0) || (N <? 0)); [discriminate|].
  intros E. split; [reflexivity|]. split; [reflexivity|].
  intros y x Hy Hx.
  destruct (mapM_nth _ _ _ E _ _ (nth_error_range N y Hy)) as (row & Hrow & Er).
  destruct (mapM_nth _ _ _ Er _ _ (nth_error_range N x Hx)) as (c & Hc & Ec).
  unfold cell.
  rewrite (nth_error_nth _ _ [] Hrow), (nth_error_nth _ _ 0 Hc).
  revert Ec. cbn [cumsum cumsum_from map last searchsorted_right].
  destruct (d / (d + (1 - d)) <=? uniform y x)%float.
  - destruct ((d + (1 - d)) / (d + (1 - d)) <=? uniform y x)%float; cbn;
      [discriminate | intros Ec; injection Ec as <-; reflexivity].
  - cbn. intros Ec. injection Ec as <-. reflexivity.
Qed.

Lemma random_initialization_witness :
  exists self,
    construct uniform_half 4 "stag_hunt" "random" 0.5%float 5 = Ok self /\
    cell 0 (grid self) 0 0 = COOPERATE /\ cell 0 (grid self) 0 1 = DEFECT.
Proof.
  eexists. split; [vm_compute; reflexivity|].
  destruct (random_initialization uniform_half 4 "stag_hunt" 0.5%float 5 _
              ltac:(vm_compute; reflexivity)) as (_ & _ & H).
  split; [apply (H 0 0); lia | apply (H 0 1); lia].
Defined.

(** ** Rendering a run *)

Lemma step_keeps (self : StrategicAutomaton) :
  valid self ->
  exists self',
    step self = Ok self' /\ valid self' /\
    game_type self' = game_type self /\ cmap self' = cmap self.
Proof.
  intros Hv. destruct (step_valid self Hv) as (s1 & E & Hv1 & _ & Hgt & _).
  exists s1. split; [exact E|]. split; [exact Hv1|]. split; [exact Hgt|].
  destruct Hv as [H1 H2 H3 _]. rewrite (step_ok self H1 H2 H3) in E.
  injection E as <-. reflexivity.
Qed.

Lemma range2_cons (lo hi : Z) :
  lo < hi -> range2 lo hi = lo :: range2 (lo + 1) hi.
Proof.
  intros H. unfold range2.
  replace (Z.to_nat (hi - lo)) with (S (Z.to_nat (hi - (lo + 1)))) by lia.
  cbn [seq map]. f_equal; [lia|].
  rewrite <- seq_shift, map_map. apply map_ext. intros k. lia.
Qed.

Lemma range2_nil (lo hi : Z) : hi <= lo -> range2 lo hi = [].
Proof.
  intros H. unfold range2. replace (Z.to_nat (hi - lo)) with O by lia.
  reflexivity.
Qed.

Lemma frames_loop (image : Type)
    (render : ndarray Z -> list string -> string -> Z -> result image)
    (draw : ndarray Z -> Z -> image) (n : nat) :
  forall (lo : Z) (s : StrategicAutomaton) (imgs : list image),
    valid s ->
    (forall g k, render g (cmap s) (game_type s) k = Ok (draw g k)) ->
    exists s' extra,
      foldM (fun '(self, images) i =>
               self <- step self ;;
               im <- render (grid self) (cmap self) (game_type self) (i + 1) ;;
               Ok (self, (images ++ [im])%list))
        (range2 lo (lo + Z.of_nat n)) (s, imgs)
      = Ok (s', (imgs ++ extra)%list) /\
      run n s = Ok s' /\ valid s' /\
      List.length extra = n /\
      forall i, (i < n)%nat ->
        exists si, run (S i) s = Ok si /\
          nth_error extra i = Some (draw (grid si) (lo + Z.of_nat i + 1)).
Proof.
  induction n as [|n IH]; intros lo s imgs Hv Hr.
  - exists s, []. rewrite range2_nil by lia. cbn [foldM].
    rewrite app_nil_r. split; [reflexivity|]. split; [reflexivity|].
    split; [exact Hv|]. split; [reflexivity|]. intros i Hi. lia.
  - rewrite range2_cons by lia. cbn [foldM].
    destruct (step_keeps s Hv) as (s1 & E1 & Hv1 & Hgt1 & Hc1).
    rewrite E1. cbn [bind]. rewrite Hc1, Hgt1, Hr. cbn [bind].
    replace (lo + Z.of_nat (S n)) with (lo + 1 + Z.of_nat n) by lia.
    destruct (IH (lo + 1) s1 (imgs ++ [draw (grid s1) (lo + 1)])%list Hv1)
      as (s' & extra & E & Er & Hv' & Hlen & Hnth).
    { intros g k. rewrite Hc1, Hgt1. apply Hr. }
    exists s', (draw (grid s1) (lo + 1) :: extra).
    split; [rewrite E, <- app_assoc; reflexivity|].
    split; [cbn [run]; rewrite E1; exact Er|].
    split; [exact Hv'|]. split; [cbn; lia|].
    intros [|i] Hi.
    + exists s1. split; [cbn [run]; rewrite E1; reflexivity|].
      cbn. do 2 f_equal. lia.
    + destruct (Hnth i ltac:(lia)) as (si & Esi & Hi').
      exists si. split; [cbn [run] in *; rewrite E1; exact Esi|].
      cbn [nth_error]. rewrite Hi'. do 2 f_equal. lia.
Qed.

Lemma last_image_snoc (image : Type) (pre : list image) (im : image) :
  last_image image (pre ++ [im])%list = Ok im.
Proof. unfold last_image. rewrite rev_unit. reflexivity. Qed.

Lemma pause_loop (image : Type) (pre : list image) (im : image) (l : list Z) :
  foldM (fun images _ => im <- last_image image images ;; Ok (images ++ [im])%list)
    l (pre ++ [im])%list
  = Ok (pre ++ [im] ++ repeat im (List.length l))%list.
Proof.
  revert pre. induction l as [|a l IH]; intros pre; cbn [foldM].
  - reflexivity.
  - rewrite last_image_snoc. cbn [bind].
    rewrite (IH (pre ++ [im])%list). f_equal.
    rewrite <- !app_assoc. reflexivity.
Qed.

(** X10. A run of at least one frame on a valid automaton, when drawing
    does not raise: the automaton is advanced [frames] generations and the
    encoder is called with the given file name and rate and with
    [frames + max(0, final_pause_frames)] images; image [i] shows the grid
    after [i + 1] generations, titled generation [i + 1], so the initial
    grid is never shown, and every pause image repeats the last frame.  The
    call returns what the encoder returns: the automaton so advanced, or
    the encoder's exception. *)
Theorem gif_frames (image : Type)
    (render : ndarray Z -> list string -> string -> Z -> result image)
    (draw : ndarray Z -> Z -> image)
    (mimsave : string -> list image -> Z -> result unit)
    (self : StrategicAutomaton) (frames : Z) (filename : string)
    (final_pause_frames fps : Z) :
  valid self -> 1 <= frames ->
  (forall g n, render g (cmap self) (game_type self) n = Ok (draw g n)) ->
  exists self' images,
    run (Z.to_nat frames) self = Ok self' /\
    len images = frames + Z.max 0 final_pause_frames /\
    (forall i, 0 <= i < frames ->
       exists si, run (Z.to_nat (i + 1)) self = Ok si /\
         nth_error images (Z.to_nat i) = Some (draw (grid si) (i + 1))) /\
    (forall j, frames <= j < frames + final_pause_frames ->
       nth_error images (Z.to_nat j) = Some (draw (grid self') frames)) /\
    run_and_save_gif image render mimsave self frames filename
      final_pause_frames fps
    = (_ <- mimsave filename images fps ;; Ok self').
Proof.
  intros Hv Hf Hr. unfold run_and_save_gif, range.
  destruct (frames_loop image render draw (Z.to_nat frames) 0 self [] Hv Hr)
    as (s' & extra & E & Er & _ & Hlen & Hnth).
  rewrite Z2Nat.id in E by lia. cbn [app] in E.
  replace (0 + frames) with frames in E by lia. rewrite E. cbn [bind].
  destruct (Hnth (Z.to_nat frames - 1)%nat ltac:(lia)) as (sl & Esl & Hl).
  replace (S (Z.to_nat frames - 1)) with (Z.to_nat frames) in Esl by lia.
  rewrite Er in Esl. injection Esl as <-.
  replace (0 + Z.of_nat (Z.to_nat frames - 1) + 1) with frames in Hl by lia.
  set (L := draw (grid s') frames) in *.
  assert (Hsplit : exists pre, extra = (pre ++ [L])%list /\
                               List.length pre = (Z.to_nat frames - 1)%nat).
  { apply nth_error_split in Hl. destruct Hl as (pre & post & -> & Hpre).
    rewrite length_app in Hlen. cbn in Hlen.
    destruct post; [|cbn in Hlen; lia].
    exists pre. split; [reflexivity | exact Hpre]. }
  destruct Hsplit as (pre & -> & Hpre).
  rewrite (pause_loop image pre L). cbn [bind].
  exists s', (pre ++ [L] ++ repeat L (List.length (range2 0 final_pause_frames)))%list.
  assert (Hrange : List.length (range2 0 final_pause_frames)
                   = Z.to_nat final_pause_frames).
  { unfold range2. rewrite length_map, length_seq. f_equal. lia. }
  split; [exact Er|]. split; [|split; [|split]].
  - unfold len. rewrite !length_app, repeat_length, Hrange. cbn. lia.
  - intros i Hi. destruct (Hnth (Z.to_nat i) ltac:(lia)) as (si & Esi & Hi').
    exists si. split; [replace (Z.to_nat (i + 1)) with (S (Z.to_nat i)) by lia;
                       exact Esi|].
    rewrite app_assoc, nth_error_app1 by (rewrite length_app; cbn; lia).
    rewrite Hi'. do 2 f_equal. lia.
  - intros j Hj. rewrite app_assoc.
    rewrite nth_error_app2 by (rewrite length_app; cbn; lia).
    rewrite length_app. cbn [List.length].
    apply nth_error_repeat. rewrite Hrange. lia.
  - reflexivity.
Qed.

Lemma gif_frames_witness :
  valid demo /\ 1 <= 2 /\
  (exists self',
     run_and_save_gif _ snapshot strict_encoder demo 2 "out.gif" 3 20 = Ok self' /\
     run 2 demo = Ok self') /\
  run_and_save_gif _ snapshot strict_encoder demo 2 "out.gif" 3 0
  = Raise ValueError.
Proof.
  split; [exact demo_valid|]. split; [lia|]. split.
  - destruct (gif_frames _ snapshot snapshot_of strict_encoder demo 2 "out.gif"
                3 20 demo_valid ltac:(lia) ltac:(reflexivity))
      as (self' & images & Er & Hlen & _ & _ & E).
    exists self'. split; [|exact Er].
    rewrite E. destruct images as [|im images]; [cbn in Hlen; lia|].
    reflexivity.
  - destruct (gif_frames _ snapshot snapshot_of strict_encoder demo 2 "out.gif"
                3 0 demo_valid ltac:(lia) ltac:(reflexivity))
      as (self' & images & _ & Hlen & _ & _ & E).
    rewrite E. destruct images as [|im images]; reflexivity.
Defined.

(** X11. With no frame to simulate ([frames <= 0]) and at least one pause
    frame requested, the call raises IndexError on [images[-1]] before
    anything is saved, whatever the automaton. *)
Theorem gif_pause_without_frames (image : Type)
    (render : ndarray Z -> list string -> string -> Z -> result image)
    (mimsave : string -> list image -> Z -> result unit)
    (self : StrategicAutomaton) (frames : Z) (filename : string)
    (final_pause_frames fps : Z) :
  frames <= 0 -> 1 <= final_pause_frames ->
  run_and_save_gif image render mimsave self frames filename
    final_pause_frames fps
  = Raise IndexError.
Proof.
  intros Hf Hp. unfold run_and_save_gif, range.
  rewrite (range2_nil 0 frames) by lia. cbn [foldM bind].
  rewrite (range2_cons 0 final_pause_frames) by lia. reflexivity.
Qed.

Lemma gif_pause_without_frames_witness :
  0 <= 0 /\ 1 <= 40 /\
  run_and_save_gif _ snapshot strict_encoder demo 0 "out.gif" 40 20
  = Raise IndexError.
Proof.
  split; [lia|]. split; [lia|].
  apply (gif_pause_without_frames _ snapshot strict_encoder demo 0 "out.gif" 40 20);
    lia.
Defined.

(** ** Locality *)

Lemma scan_offsets_bound (dy dx : Z) :
  In (dy, dx) scan_offsets -> -1 <= dy <= 1 /\ -1 <= dx <= 1.
Proof.
  unfold scan_offsets. cbn [In]. intros H.
  repeat (destruct H as [H | H]; [injection H as <- <-; lia|]). destruct H.
Qed.

Lemma neighbor_offsets_bound (dy dx : Z) :
  In (dy, dx) neighbor_offsets -> -1 <= dy <= 1 /\ -1 <= dx <= 1.
Proof.
  unfold neighbor_offsets. cbn [In]. intros H.
  repeat (destruct H as [H | H]; [injection H as <- <-; lia|]). destruct H.
Qed.

Lemma wrap_twice (N i d e : Z) :
  1 <= N -> ((i + d) mod N + e) mod N = (i + (d + e)) mod N.
Proof.
  intros HN. rewrite Z.add_mod_idemp_l by lia. f_equal. lia.
Qed.

Lemma winner_local (gt : string) (N : Z) (g g' : ndarray Z) (y x : Z) :
  1 <= N ->
  (forall dy dx, -2 <= dy <= 2 -> -2 <= dx <= 2 ->
     cell 0 g ((y + dy) mod N) ((x + dx) mod N)
     = cell 0 g' ((y + dy) mod N) ((x + dx) mod N)) ->
  winner gt N g y x = winner gt N g' y x.
Proof.
  intros HN H. unfold winner, candidates.
  rewrite !neighborhood_offsets, !map_map. f_equal.
  apply map_ext_in. intros [dy dx] Hin.
  apply scan_offsets_bound in Hin. destruct Hin as [Hdy Hdx].
  f_equal; [|apply H; lia].
  unfold fitness_sum. rewrite !neighbors_offsets, !fold_left_map.
  apply fold_left_ext_in. intros s [ey ex] Hin.
  apply neighbor_offsets_bound in Hin. destruct Hin as [Hey Hex].
  rewrite !(wrap_twice N y dy ey HN), !(wrap_twice N x dx ex HN).
  rewrite (H dy dx) by lia. rewrite (H (dy + ey) (dx + ex)) by lia.
  reflexivity.
Qed.

(** X12. A generation is local with radius 2: the new strategy of a cell
    depends only on the 5 by 5 block around it (wrapped on the torus).  Two
    grids of one automaton that agree on that block give the cell the same
    new strategy. *)
Theorem step_is_local (self : StrategicAutomaton) (g' : ndarray Z) (y x : Z) :
  valid self -> square (grid_size self) g' -> binary g' ->
  0 <= y < grid_size self -> 0 <= x < grid_size self ->
  (forall dy dx, -2 <= dy <= 2 -> -2 <= dx <= 2 ->
     cell 0 (grid self) ((y + dy) mod grid_size self) ((x + dx) mod grid_size self)
     = cell 0 g' ((y + dy) mod grid_size self) ((x + dx) mod grid_size self)) ->
  exists s1 s2,
    step self = Ok s1 /\ step (with_grid self g') = Ok s2 /\
    cell 0 (grid s1) y x = cell 0 (grid s2) y x.
Proof.
  intros Hv Hsq' Hb' Hy Hx H.
  assert (Hv' : valid (with_grid self g')).
  { destruct Hv as [Hgt Hp _ _]. constructor; cbn; assumption. }
  destruct (step_valid self Hv) as (s1 & E1 & _ & _ & _ & _ & G1).
  destruct (step_valid _ Hv') as (s2 & E2 & _ & _ & _ & _ & G2).
  exists s1, s2. split; [exact E1|]. split; [exact E2|].
  rewrite G1, G2. unfold next_grid, with_grid. cbn [grid_size game_type grid].
  rewrite !cell_tabulate by assumption.
  rewrite (winner_local (game_type self) (grid_size self) (grid self) g' y x
             ltac:(lia) H). reflexivity.
Qed.

Lemma wide_valid : valid wide.
Proof.
  constructor.
  - left. reflexivity.
  - reflexivity.
  - split; [reflexivity|].
    repeat first [apply Forall_nil | apply Forall_cons]; reflexivity.
  - unfold binary, COOPERATE, DEFECT.
    repeat first [apply Forall_nil | apply Forall_cons]; auto.
Qed.

Lemma wide_far_agrees (dy dx : Z) :
  -2 <= dy <= 2 -> -2 <= dx <= 2 ->
  cell 0 (grid wide) ((3 + dy) mod grid_size wide) ((3 + dx) mod grid_size wide)
  = cell 0 wide_far ((3 + dy) mod grid_size wide) ((3 + dx) mod grid_size wide).
Proof.
  intros Hy Hx.
  assert (Ey : dy = -2 \/ dy = -1 \/ dy = 0 \/ dy = 1 \/ dy = 2) by lia.
  assert (Ex : dx = -2 \/ dx = -1 \/ dx = 0 \/ dx = 1 \/ dx = 2) by lia.
  destruct Ey as [-> | [-> | [-> | [-> | ->]]]],
           Ex as [-> | [-> | [-> | [-> | ->]]]]; reflexivity.
Qed.

Lemma step_is_local_witness :
  valid wide /\
  cell 0 (grid wide) 0 0 <> cell 0 wide_far 0 0 /\
  cell 0 (grid wide) 6 6 <> cell 0 wide_far 6 6 /\
  exists s1 s2,
    step wide = Ok s1 /\ step (with_grid wide wide_far) = Ok s2 /\
    cell 0 (grid s1) 3 3 = cell 0 (grid s2) 3 3 /\
    cell 0 (grid s1) 0 0 <> cell 0 (grid s2) 0 0.
Proof.
  split; [exact wide_valid|].
  split; [discriminate|]. split; [discriminate|].
  destruct (step_is_local wide wide_far 3 3 wide_valid) as (s1 & s2 & E1 & E2 & H).
  - split; [reflexivity|].
    repeat first [apply Forall_nil | apply Forall_cons]; reflexivity.
  - unfold binary, COOPERATE, DEFECT.
    repeat first [apply Forall_nil | apply Forall_cons]; auto.
  - cbn. lia.
  - cbn. lia.
  - exact wide_far_agrees.
  - exists s1, s2. split; [exact E1|]. split; [exact E2|]. split; [exact H|].
    vm_compute in E1, E2. injection E1 as <-. injection E2 as <-. discriminate.
Defined.
